(** * Fibonacci billing engine: a shallow embedding of [FibonacciBilling]

    The engine of [core/fibonacci-billing] is embedded function by function.
    JavaScript numbers are IEEE 754 binary64 values, so they are modelled by
    the primitive type [float], whose operations round exactly like the
    JavaScript ones.  Cycle indices and cycle counts are integers, in [Z].
    The engine object is a record; each method takes the engine and
    returns its result together with the engine it leaves behind, because
    [getNextTerm] pushes onto [this.sequence]. *)

From Stdlib Require Import ZArith List Bool Lia Floats.
Import ListNotations.

Set Warnings "-inexact-float".

Local Open Scope Z_scope.

(** ** JavaScript numbers *)

Module JS.

Definition number := float.

(** [ToBoolean] on a number: [0], [-0] and [NaN] are falsy. *)
Definition truthy (x : number) : bool := negb (is_zero x || is_nan x).

(** [options.field || dflt] where the field is an optional number. *)
Definition or_number (field : option number) (dflt : number) : number :=
  match field with
  | Some x => if truthy x then x else dflt
  | None => dflt
  end.

(** [options.field || dflt] where the field is an optional boolean. *)
Definition or_bool (field : option bool) (dflt : bool) : bool :=
  match field with
  | Some b => b || dflt
  | None => dflt
  end.

(** [Math.min(a, b)]: [NaN] if either argument is [NaN], and [-0] is
    smaller than [+0]. *)
Definition Math_min (a b : number) : number :=
  if is_nan a || is_nan b then nan
  else if (a <? b)%float then a
  else if (b <? a)%float then b
  else if get_sign a then a else b.

(** The strings [Number.prototype.toFixed(2)] can return, kept as their
    content: ["NaN"], ["Infinity"] with an optional minus sign, the
    shortest round-trip decimal [String(x)] of a number [x] of magnitude
    at least [1e21], or an optional minus sign followed by the decimal
    digits of [n] with a point before the last two. *)
Inductive numeric_string : Type :=
| StrNaN
| StrInfinity (neg : bool)
| StrShortest (x : number)
| StrFixed (neg : bool) (n : Z).

(** The integer [n] for which [n / 100 - x] is closest to zero, the
    larger one on a tie, for a finite [x >= 0] given by its exact
    binary expansion. *)
Definition nearest_hundredths (x : number) : Z :=
  match Prim2SF x with
  | S754_finite _ m e =>
      if 0 <=? e then 100 * Zpos m * 2 ^ e
      else (200 * Zpos m + 2 ^ (- e)) / 2 ^ (1 - e)
  | _ => 0
  end.

Definition toFixed2 (x : number) : numeric_string :=
  if is_nan x then StrNaN
  else if is_infinity x then StrInfinity (x <? 0)%float
  else
    let neg := (x <? 0)%float in
    let magnitude := if neg then (- x)%float else x in
    if (1e21 <=? magnitude)%float then StrShortest x
    else StrFixed neg (nearest_hundredths magnitude).

(** The binary64 value nearest to [n / 100] (ties to even), with the sign
    [neg], for the digits [n >= 0] of a [toFixed(2)] string.  Below
    [2 ^ 53] the integer [n] is itself a binary64 value and the quotient
    is one correctly rounded division; above, the quotient of the two
    integers is rounded once by the specification of the division. *)
Definition hundredths_to_number (neg : bool) (n : Z) : number :=
  let magnitude :=
    if n <? 9007199254740992
    then (of_uint63 (Uint63.of_Z n) / 100)%float
    else SF2Prim (SF64div (S754_finite false (Z.to_pos n) 0)
                          (S754_finite false 100 0)) in
  if neg then (- magnitude)%float else magnitude.

Definition parseFloat (s : numeric_string) : number :=
  match s with
  | StrNaN => nan
  | StrInfinity neg => if neg then neg_infinity else infinity
  | StrShortest x => x
  | StrFixed neg n => hundredths_to_number neg n
  end.

(** [parseFloat(x.toFixed(2))], the rounding used for every money field. *)
Definition round2 (x : number) : number := parseFloat (toFixed2 x).

(** [arr[i]] for an integer index; [None] is [undefined]. *)
Definition index (arr : list number) (i : Z) : option number :=
  if i <? 0 then None else nth_error arr (Z.to_nat i).

(** A value read from an array and used as a number: arithmetic turns
    [undefined] into [NaN]. *)
Definition to_number (v : option number) : number :=
  match v with
  | Some x => x
  | None => nan
  end.

Definition length (arr : list number) : Z := Z.of_nat (List.length arr).

End JS.

Import JS.

(** ** Data model *)

(** [FibonacciBillingOptions], every field optional ([Partial<...>]). *)
Record FibonacciBillingOptions : Type := {
  opt_basePrice : option number;
  opt_discountRate : option number;
  opt_capTerm : option bool;
  opt_maxTerm : option number
}.

Definition no_options : FibonacciBillingOptions :=
  {| opt_basePrice := None; opt_discountRate := None;
     opt_capTerm := None; opt_maxTerm := None |}.

(** The engine object: four configuration fields and the sequence cache. *)
Record FibonacciBilling : Type := {
  basePrice : number;
  discountRate : number;
  capTerm : bool;
  maxTerm : number;
  sequence : list number
}.

Module BillingCycleInfo.
Record t : Type := {
  cycle : Z;
  termMonths : number;
  baseAmount : number;
  discount : number;
  finalAmount : number;
  savingsAmount : number;
  effectiveMonthlyRate : number
}.
End BillingCycleInfo.

Module BillingSummary.
Record t : Type := {
  cycles : Z;
  totalMonths : number;
  totalAmount : number;
  totalBaseAmount : number;
  totalSavings : number;
  savingsPercentage : number;
  effectiveMonthlyRate : number
}.
End BillingSummary.

Import BillingCycleInfo.

(** ** Operations *)

Definition initial_sequence : list number :=
  [1; 2; 3; 5; 8; 13; 21; 34; 55; 89; 144]%float.

Definition constructor (options : FibonacciBillingOptions) : FibonacciBilling :=
  {| basePrice := or_number (opt_basePrice options) 10%float;
     discountRate := or_number (opt_discountRate options) 0.05%float;
     capTerm := or_bool (opt_capTerm options) false;
     maxTerm := or_number (opt_maxTerm options) 0%float;
     sequence := initial_sequence |}.

(** [this.sequence.push(x)] *)
Definition push (this : FibonacciBilling) (x : number) : FibonacciBilling :=
  {| basePrice := basePrice this;
     discountRate := discountRate this;
     capTerm := capTerm this;
     maxTerm := maxTerm this;
     sequence := sequence this ++ [x] |}.

(** The element selected by [getNextTerm] before the cap is applied,
    [this.sequence[Math.min(currentCycle, this.sequence.length - 1)]].
    On every engine a program can hold, this read and the two reads of
    [nextFib] are in range ([uncapped_cases], [nextFib_spec] below). *)
Definition selected (this : FibonacciBilling) (currentCycle : Z) : number :=
  to_number
    (index (sequence this) (Z.min currentCycle (length (sequence this) - 1))).

(** [this.sequence[this.sequence.length - 1] +
     this.sequence[this.sequence.length - 2]] *)
Definition nextFib (this : FibonacciBilling) : number :=
  (to_number (index (sequence this) (length (sequence this) - 1)) +
   to_number (index (sequence this) (length (sequence this) - 2)))%float.

Definition getNextTerm (this : FibonacciBilling) (currentCycle : Z)
  : number * FibonacciBilling :=
  if currentCycle <? 0 then (to_number (index (sequence this) 0), this)
  else
    let this :=
      if length (sequence this) <=? currentCycle
      then push this (nextFib this)
      else this in
    let nextTerm := selected this currentCycle in
    let nextTerm :=
      if capTerm this && (0 <? maxTerm this)%float
      then Math_min nextTerm (maxTerm this)
      else nextTerm in
    (nextTerm, this).

(** [currentCycle] is an integer index, and [cycle] is kept in [Z]: the
    sum [currentCycle + 1] of the source is exact in binary64 for
    [|currentCycle| < 2 ^ 53], which covers every index of a schedule
    (an array holds fewer than [2 ^ 32] entries).  Beyond that range the
    source rounds the sum and the field here does not follow it. *)
Definition calculateNextBilling (this : FibonacciBilling) (currentCycle : Z)
  : BillingCycleInfo.t * FibonacciBilling :=
  let '(termMonths, this) := getNextTerm this currentCycle in
  let baseAmount := (basePrice this * termMonths)%float in
  let discount := Math_min (discountRate this * (termMonths - 1))%float 0.5%float in
  let discountedAmount := (baseAmount * (1 - discount))%float in
  ({| cycle := currentCycle + 1;
      termMonths := termMonths;
      baseAmount := round2 baseAmount;
      discount := round2 (discount * 100)%float;
      finalAmount := round2 discountedAmount;
      savingsAmount := round2 (baseAmount - discountedAmount)%float;
      effectiveMonthlyRate := round2 (discountedAmount / termMonths)%float |},
   this).

(** The [for] loop of [generateBillingSchedule]: [todo] iterations remain,
    [i] is the loop counter and [schedule] the array built so far. *)
Fixpoint schedule_loop (todo : nat) (i : Z) (schedule : list BillingCycleInfo.t)
  (this : FibonacciBilling) : list BillingCycleInfo.t * FibonacciBilling :=
  match todo with
  | O => (schedule, this)
  | S todo' =>
      let '(info, this) := calculateNextBilling this i in
      schedule_loop todo' (i + 1) (schedule ++ [info]) this
  end.

(** [i < cycles] holds for [i = 0 .. cycles - 1], so the loop body runs
    [max 0 cycles] times. *)
Definition generateBillingSchedule (this : FibonacciBilling) (cycles : Z)
  : list BillingCycleInfo.t * FibonacciBilling :=
  schedule_loop (Z.to_nat cycles) 0 [] this.

(** [schedule.reduce((sum, item) => sum + field(item), 0)] *)
Definition reduce_sum (field : BillingCycleInfo.t -> number)
  (schedule : list BillingCycleInfo.t) : number :=
  fold_left (fun sum item => (sum + field item)%float) schedule 0%float.

Definition getBillingSummary (this : FibonacciBilling) (cycles : Z)
  : BillingSummary.t * FibonacciBilling :=
  let '(schedule, this) := generateBillingSchedule this cycles in
  let totalMonths := reduce_sum termMonths schedule in
  let totalAmount := reduce_sum finalAmount schedule in
  let totalBaseAmount := reduce_sum baseAmount schedule in
  let totalSavings := reduce_sum savingsAmount schedule in
  ({| BillingSummary.cycles := cycles;
      BillingSummary.totalMonths := totalMonths;
      BillingSummary.totalAmount := round2 totalAmount;
      BillingSummary.totalBaseAmount := round2 totalBaseAmount;
      BillingSummary.totalSavings := round2 totalSavings;
      BillingSummary.savingsPercentage :=
        round2 ((totalSavings / totalBaseAmount) * 100)%float;
      BillingSummary.effectiveMonthlyRate :=
        round2 (totalAmount / totalMonths)%float |},
   this).

(** The default argument [cycles = 10] of the last two methods: a call
    without argument is the call with [default_cycles]. *)
Definition default_cycles : Z := 10.

(** ** Auxiliary definitions used in the statements *)

(** The cap of [getNextTerm], [Math.min(nextTerm, this.maxTerm)] when
    [this.capTerm && this.maxTerm > 0]. *)
Definition capped (this : FibonacciBilling) (nextTerm : number) : number :=
  if capTerm this && (0 <? maxTerm this)%float
  then Math_min nextTerm (maxTerm this)
  else nextTerm.

(** The engine [b] has the configuration of [a]. *)
Definition same_config (a b : FibonacciBilling) : Prop :=
  basePrice b = basePrice a /\ discountRate b = discountRate a /\
  capTerm b = capTerm a /\ maxTerm b = maxTerm a.

(** The cache of [b] is the cache of [a] with elements appended. *)
Definition extends (a b : FibonacciBilling) : Prop :=
  exists appended, sequence b = sequence a ++ appended.

(** The engine left by [new FibonacciBilling()]. *)
Definition fresh : FibonacciBilling := constructor no_options.

(** Options that set only [basePrice] and [discountRate]. *)
Definition priced (price rate : number) : FibonacciBillingOptions :=
  {| opt_basePrice := Some price; opt_discountRate := Some rate;
     opt_capTerm := None; opt_maxTerm := None |}.

(** Options that only switch the cap on, at [cap] months. *)
Definition capping (cap : number) : FibonacciBillingOptions :=
  {| opt_basePrice := None; opt_discountRate := None;
     opt_capTerm := Some true; opt_maxTerm := Some cap |}.

Arguments priced (price rate)%_float.
Arguments capping cap%_float.
Arguments capped this nextTerm%_float.

(** Engines that a program can hold: the constructor's result, and what
    any public method leaves behind. *)
Inductive reachable : FibonacciBilling -> Prop :=
| reach_new options : reachable (constructor options)
| reach_getNextTerm this k :
    reachable this -> reachable (snd (getNextTerm this k))
| reach_calculateNextBilling this k :
    reachable this -> reachable (snd (calculateNextBilling this k))
| reach_generateBillingSchedule this n :
    reachable this -> reachable (snd (generateBillingSchedule this n))
| reach_getBillingSummary this n :
    reachable this -> reachable (snd (getBillingSummary this n)).

(** ** Order-preserving integer keys for binary64 numbers *)

Module F64.

(** Every exponent met while rounding a product of two binary64 numbers
    is at least [- bias]. *)
Definition bias : Z := 2148.

(** [m * 2 ^ e] as an integer multiple of [2 ^ (- bias)]. *)
Definition scaled (m e : Z) : Z := m * 2 ^ (e + bias).

(** The key of [+Infinity], above the key of every finite number. *)
Definition top : Z := 2 ^ 6000.

(** Comparison of valid numbers other than [NaN] is comparison of their
    keys. *)
Definition key (x : spec_float) : Z :=
  match x with
  | S754_zero _ => 0
  | S754_nan => 0
  | S754_infinity s => cond_Zopp s top
  | S754_finite s m e => cond_Zopp s (scaled (Zpos m) e)
  end.

Definition rank (x : float) : Z := key (Prim2SF x).

(** The number of binary digits of a mantissa. *)
Definition digits (m : positive) : Z := Zpos (digits2_pos m).

(** The exponent of the binary64 format for a number with [e] integer
    digits, [fexp prec emax] with the constants replaced. *)
Definition fexp64 (e : Z) : Z := Z.max (e - 53) (-1074).

(** The last step of [binary_round_aux]. *)
Definition finish (s : bool) (m e : Z) : spec_float :=
  match m with
  | Z0 => S754_zero s
  | Zpos p => if e <=? 971 then S754_finite s p e else S754_infinity s
  | Zneg _ => S754_nan
  end.

(** The shift that [shr_fexp] applies to the mantissa [m] at exponent [e]. *)
Definition shift_of (m e : Z) : Z := Z.max (fexp64 (Zdigits2 m + e) - e) 0.

End F64.

Import F64.

(** ** Predicates used in the proofs *)

(** A number that is not [NaN] and carries the sign [s]. *)
Definition has_sign (s : bool) (x : spec_float) : Prop :=
  match x with
  | S754_zero s' | S754_infinity s' | S754_finite s' _ _ => s' = s
  | S754_nan => False
  end.

(** None of the decimals [0.00], [0.01], ..., [50.00] parses to a number
    above 50. *)
Definition hundredths_checked : bool :=
  forallb
    (fun i => negb (50 <? hundredths_to_number false (Z.of_nat i))%float)
    (seq 0 (Z.to_nat 5001)).

(** The elements of a cache never decrease along the list. *)
Inductive ascending : list number -> Prop :=
| ascending_nil : ascending []
| ascending_one x : ascending [x]
| ascending_cons x y l :
    rank x <= rank y -> ascending (y :: l) -> ascending (x :: y :: l).

(** What every cache satisfies: at least two elements, all positive (so
    none is [NaN]), never decreasing. *)
Definition cache_ok (l : list number) : Prop :=
  (2 <= List.length l)%nat /\ Forall (fun x => 0 < rank x) l /\ ascending l.

(** The term selected by the call [getNextTerm(k)] before the cap:
    [sequence[0]] for a negative [k], else the element selected once the
    cache has grown. *)
Definition uncapped (this : FibonacciBilling) (k : Z) : number :=
  if k <? 0 then to_number (index (sequence this) 0)
  else selected (snd (getNextTerm this k)) k.

(** ** The sequence the cache follows *)

(** The pair of the terms number [k] and [k + 1] of the sequence that
    starts with 1 and 2 and continues as [nextFib] does: each term is the
    binary64 sum of the last one and the one before. *)
Fixpoint fibonacci_pair (k : nat) : number * number :=
  match k with
  | O => (1, 2)%float
  | S k' => let '(a, b) := fibonacci_pair k' in (b, (b + a)%float)
  end.

Definition fibonacci (k : nat) : number := fst (fibonacci_pair k).

(** The same recurrence over the integers, without rounding. *)
Fixpoint fibonacci_Z_pair (k : nat) : Z * Z :=
  match k with
  | O => (1, 2)
  | S k' => let '(a, b) := fibonacci_Z_pair k' in (b, b + a)
  end.

Definition fibonacci_Z (k : nat) : Z := fst (fibonacci_Z_pair k).

(** The record that [calculateNextBilling] builds once [getNextTerm] has
    returned [termMonths]. *)
Definition billing_for (this : FibonacciBilling) (currentCycle : Z)
  (termMonths : number) : BillingCycleInfo.t :=
  let baseAmount := (basePrice this * termMonths)%float in
  let discount :=
    Math_min (discountRate this * (termMonths - 1))%float 0.5%float in
  let discountedAmount := (baseAmount * (1 - discount))%float in
  {| cycle := currentCycle + 1;
     termMonths := termMonths;
     baseAmount := round2 baseAmount;
     discount := round2 (discount * 100)%float;
     finalAmount := round2 discountedAmount;
     savingsAmount := round2 (baseAmount - discountedAmount)%float;
     effectiveMonthlyRate := round2 (discountedAmount / termMonths)%float |}.

(** Whether the cap of [getNextTerm] is in force. *)
Definition cap_on (this : FibonacciBilling) : bool :=
  capTerm this && (0 <? maxTerm this)%float.

(** ** The calculator of the stand-alone visualizer

    [generateBillingData] of the React component
    [FibonacciBillingVisualizer], a closure over the state values
    [basePrice], [discountRate] and [cycles].  It computes its rows
    without the engine, from its own copy of the sequence. *)

Module Visualizer.

Record BillingDatum : Type := {
  cycle : Z;
  termMonths : number;
  baseAmount : number;
  discount : number;
  finalAmount : number;
  savingsAmount : number;
  effectiveMonthlyRate : number;
  month : number
}.

Definition fibSequence : list number :=
  [1; 2; 3; 5; 8; 13; 21; 34; 55; 89; 144]%float.

(** [i < fibSequence.length ? fibSequence[i]
       : fibSequence[fibSequence.length - 1]
         + fibSequence[fibSequence.length - 2]] *)
Definition termAt (i : Z) : number :=
  if i <? length fibSequence then to_number (index fibSequence i)
  else (to_number (index fibSequence (length fibSequence - 1)) +
        to_number (index fibSequence (length fibSequence - 2)))%float.

(** The body of the [for] loop: the row pushed at counter [i], and the
    running [totalMonths] after it. *)
Definition step (basePrice discountRate : number) (i : Z)
  (totalMonths : number) : BillingDatum * number :=
  let termMonths := termAt i in
  let baseAmount := (basePrice * termMonths)%float in
  let discount := Math_min (discountRate * (termMonths - 1))%float 0.5%float in
  let discountedAmount := (baseAmount * (1 - discount))%float in
  let totalMonths := (totalMonths + termMonths)%float in
  ({| cycle := i + 1;
      termMonths := termMonths;
      baseAmount := round2 baseAmount;
      discount := round2 (discount * 100)%float;
      finalAmount := round2 discountedAmount;
      savingsAmount := round2 (baseAmount - discountedAmount)%float;
      effectiveMonthlyRate := round2 (discountedAmount / termMonths)%float;
      month := totalMonths |},
   totalMonths).

Fixpoint data_loop (basePrice discountRate : number) (todo : nat) (i : Z)
  (totalMonths : number) (data : list BillingDatum) : list BillingDatum :=
  match todo with
  | O => data
  | S todo' =>
      let '(row, totalMonths) := step basePrice discountRate i totalMonths in
      data_loop basePrice discountRate todo' (i + 1) totalMonths (data ++ [row])
  end.

Definition generateBillingData (basePrice discountRate : number) (cycles : Z)
  : list BillingDatum :=
  data_loop basePrice discountRate (Z.to_nat cycles) 0 0%float [].

(** [billingData.reduce((sum, item) => sum + item.termMonths, 0)], the
    total duration the component displays. *)
Definition totalMonths (billingData : list BillingDatum) : number :=
  fold_left (fun sum item => (sum + termMonths item)%float) billingData
    0%float.

(** The three other totals of the component, each a [reduce] over the
    rows; the component displays them through [toFixed(2)]. *)
Definition totalAmount (billingData : list BillingDatum) : number :=
  fold_left (fun sum item => (sum + finalAmount item)%float) billingData
    0%float.

Definition totalBaseAmount (billingData : list BillingDatum) : number :=
  fold_left (fun sum item => (sum + baseAmount item)%float) billingData
    0%float.

Definition totalSavings (billingData : list BillingDatum) : number :=
  fold_left (fun sum item => (sum + savingsAmount item)%float) billingData
    0%float.

(** The value of the loop variable [totalMonths] when the counter is
    [i]. *)
Fixpoint running_months (i : nat) : number :=
  match i with
  | O => 0%float
  | S i' => (running_months i' + termAt (Z.of_nat i'))%float
  end.

(** A row without its [month] field, as a record of the engine. *)
Definition to_info (row : BillingDatum) : BillingCycleInfo.t :=
  {| BillingCycleInfo.cycle := cycle row;
     BillingCycleInfo.termMonths := termMonths row;
     BillingCycleInfo.baseAmount := baseAmount row;
     BillingCycleInfo.discount := discount row;
     BillingCycleInfo.finalAmount := finalAmount row;
     BillingCycleInfo.savingsAmount := savingsAmount row;
     BillingCycleInfo.effectiveMonthlyRate := effectiveMonthlyRate row |}.

End Visualizer.

(** ** The component that displays the engine

    The effect of the React component [FibonacciBillingVisualizer] of the
    package: it builds an engine from its four properties, then asks this
    one engine for the schedule and for the summary, in this order. *)

Module Component.

Definition props (basePrice discountRate : number) (capTerm : bool)
  (maxTerm : number) : FibonacciBillingOptions :=
  {| opt_basePrice := Some basePrice;
     opt_discountRate := Some discountRate;
     opt_capTerm := Some capTerm;
     opt_maxTerm := Some maxTerm |}.

Definition useEffect (basePrice discountRate : number) (capTerm : bool)
  (maxTerm : number) (cycles : Z)
  : list BillingCycleInfo.t * BillingSummary.t :=
  let billing := constructor (props basePrice discountRate capTerm maxTerm) in
  let '(schedule, billing) := generateBillingSchedule billing cycles in
  let '(summary, billing) := getBillingSummary billing cycles in
  (schedule, summary).

End Component.

(** * Properties *)

(** ** Binary64 arithmetic *)

Section Digits.

Lemma digits_pos m : 1 <= digits m.
Proof. unfold digits. lia. Qed.

Lemma digits_bounds m : 2 ^ (digits m - 1) <= Zpos m < 2 ^ digits m.
Proof.
  unfold digits. induction m as [m IH | m IH |]; cbn [digits2_pos].
  - rewrite Pos2Z.inj_succ.
    replace (Z.succ (Zpos (digits2_pos m)) - 1) with (Z.succ (Zpos (digits2_pos m) - 1)) by lia.
    rewrite !Z.pow_succ_r by lia. lia.
  - rewrite Pos2Z.inj_succ.
    replace (Z.succ (Zpos (digits2_pos m)) - 1) with (Z.succ (Zpos (digits2_pos m) - 1)) by lia.
    rewrite !Z.pow_succ_r by lia. lia.
  - cbn. lia.
Qed.

Lemma pow2_gt0 n : 0 <= n -> 0 < 2 ^ n.
Proof. intros. apply Z.pow_pos_nonneg; lia. Qed.

Lemma scaled_split m e k :
  0 <= k -> 0 <= e + bias -> scaled m (e + k) = m * 2 ^ k * 2 ^ (e + bias).
Proof.
  intros Hk He. unfold scaled.
  replace (e + k + bias) with (k + (e + bias)) by lia.
  rewrite (Z.pow_add_r 2 k (e + bias)) by lia. ring.
Qed.

Lemma scaled_pow d e :
  0 <= d -> 0 <= e + bias -> scaled (2 ^ d) e = 2 ^ (d + e + bias).
Proof.
  intros Hd He. unfold scaled.
  replace (d + e + bias) with (d + (e + bias)) by lia.
  now rewrite (Z.pow_add_r 2 d (e + bias)) by lia.
Qed.

Lemma scaled_mono m n e : 0 <= e + bias -> m <= n -> scaled m e <= scaled n e.
Proof.
  intros He Hmn. unfold scaled.
  apply Z.mul_le_mono_nonneg_r; [apply Z.lt_le_incl, pow2_gt0 |]; assumption.
Qed.

Lemma scaled_lt m n e : 0 <= e + bias -> m < n -> scaled m e < scaled n e.
Proof.
  intros He Hmn. unfold scaled.
  apply Z.mul_lt_mono_pos_r; [apply pow2_gt0 |]; assumption.
Qed.

(** The value of a positive mantissa lies between the powers of two
    given by its number of digits. *)
Lemma scaled_lower m e :
  0 <= e + bias -> 2 ^ (digits m - 1 + e + bias) <= scaled (Zpos m) e.
Proof.
  intros He. pose proof (digits_pos m). pose proof (digits_bounds m).
  rewrite <- scaled_pow by lia. apply scaled_mono; lia.
Qed.

Lemma scaled_upper m e :
  0 <= e + bias -> scaled (Zpos m) e < 2 ^ (digits m + e + bias).
Proof.
  intros He. pose proof (digits_pos m). pose proof (digits_bounds m).
  rewrite <- scaled_pow by lia. apply scaled_lt; lia.
Qed.

(** A value with fewer integer digits is smaller. *)
Lemma scaled_lt_by_digits m1 e1 m2 e2 :
  0 <= e1 + bias -> 0 <= e2 + bias ->
  digits m1 + e1 < digits m2 + e2 ->
  scaled (Zpos m1) e1 < scaled (Zpos m2) e2.
Proof.
  intros H1 H2 Hd.
  pose proof (scaled_upper m1 e1 H1). pose proof (scaled_lower m2 e2 H2).
  pose proof (digits_pos m1). pose proof (digits_pos m2).
  assert (2 ^ (digits m1 + e1 + bias) <= 2 ^ (digits m2 - 1 + e2 + bias))
    by (apply Z.pow_le_mono_r; lia).
  lia.
Qed.

End Digits.

(** Canonical representations. *)
Section Canonical.

Lemma fexp_eq e : fexp prec emax e = fexp64 e.
Proof. reflexivity. Qed.

Lemma bounded_spec m e :
  bounded prec emax m e = true <-> (fexp64 (digits m + e) = e /\ e <= 971).
Proof.
  unfold bounded, canonical_mantissa. rewrite fexp_eq.
  change (emax - prec) with 971. fold (digits m).
  rewrite andb_true_iff, Z.eqb_eq, Z.leb_le. reflexivity.
Qed.

Lemma bounded_bias m e : bounded prec emax m e = true -> 0 <= e + bias.
Proof.
  rewrite bounded_spec. unfold fexp64, bias. lia.
Qed.

Lemma bounded_below_top m e :
  bounded prec emax m e = true -> 0 < scaled (Zpos m) e < top.
Proof.
  intros Hb. pose proof (bounded_bias m e Hb) as He.
  apply bounded_spec in Hb as [Hc Hle].
  pose proof (scaled_upper m e He). pose proof (scaled_lower m e He).
  pose proof (digits_pos m).
  assert (0 < 2 ^ (digits m - 1 + e + bias)) by (apply pow2_gt0; lia).
  assert (2 ^ (digits m + e + bias) <= top).
  { unfold top. apply Z.pow_le_mono_r; [lia |].
    unfold fexp64, bias in *. lia. }
  lia.
Qed.

Lemma canonical_compare m1 e1 m2 e2 :
  bounded prec emax m1 e1 = true -> bounded prec emax m2 e2 = true ->
  match e1 ?= e2 with
  | Lt => Lt
  | Gt => Gt
  | Eq => Pos.compare_cont Eq m1 m2
  end = (scaled (Zpos m1) e1 ?= scaled (Zpos m2) e2).
Proof.
  intros H1 H2.
  pose proof (bounded_bias _ _ H1) as B1. pose proof (bounded_bias _ _ H2) as B2.
  apply bounded_spec in H1 as [C1 _]. apply bounded_spec in H2 as [C2 _].
  pose proof (digits_pos m1). pose proof (digits_pos m2).
  destruct (Z.compare_spec e1 e2) as [Heq | Hlt | Hgt].
  - subst e2. change (Pos.compare_cont Eq m1 m2) with (Pos.compare m1 m2).
    rewrite Pos2Z.inj_compare.
    unfold scaled. symmetry.
    destruct (Z.compare_spec (Zpos m1) (Zpos m2)) as [E | L | G].
    + rewrite E. apply Z.compare_refl.
    + apply Z.compare_lt_iff. apply Z.mul_lt_mono_pos_r; [now apply pow2_gt0 | assumption].
    + apply Z.compare_gt_iff. apply Z.mul_lt_mono_pos_r; [now apply pow2_gt0 | assumption].
  - symmetry. apply Z.compare_lt_iff. apply scaled_lt_by_digits; try assumption.
    unfold fexp64 in *. lia.
  - symmetry. apply Z.compare_gt_iff. apply scaled_lt_by_digits; try assumption.
    unfold fexp64 in *. lia.
Qed.

Ltac compare_by_lia :=
  match goal with
  | |- Some _ = Some (?a ?= ?b) =>
      first
        [ replace (a ?= b) with Lt
            by (symmetry; apply Z.compare_lt_iff; lia); reflexivity
        | replace (a ?= b) with Gt
            by (symmetry; apply Z.compare_gt_iff; lia); reflexivity
        | replace (a ?= b) with Eq
            by (symmetry; apply Z.compare_eq_iff; lia); reflexivity ]
  end.

(** On valid numbers other than [NaN], comparison is comparison of keys. *)
Lemma SFcompare_key x y :
  valid_binary x = true -> valid_binary y = true ->
  x <> S754_nan -> y <> S754_nan ->
  SFcompare x y = Some (key x ?= key y).
Proof.
  intros Vx Vy Nx Ny.
  assert (Htop : 0 < top) by (apply pow2_gt0; lia).
  destruct x as [sx | sx | | sx mx ex]; try congruence;
  destruct y as [sy | sy | | sy my ey]; try congruence;
  cbn [SFcompare key valid_binary] in *;
  try (pose proof (bounded_below_top _ _ Vx));
  try (pose proof (bounded_below_top _ _ Vy)).
  all: try (destruct sx); try (destruct sy); cbn [cond_Zopp];
    try (compare_by_lia).
  - rewrite Z.compare_opp.
    rewrite <- (canonical_compare my ey mx ex Vy Vx).
    rewrite (Z.compare_antisym ey ex).
    destruct (ey ?= ex); cbn; try reflexivity.
    rewrite Pos.compare_cont_antisym. reflexivity.
  - f_equal. now apply canonical_compare.
Qed.

End Canonical.

(** Right shifts of the mantissa. *)
Section Shift.

Lemma iter_pos_nat {A} (f : A -> A) p : forall x,
  iter_pos f p x = Nat.iter (Pos.to_nat p) f x.
Proof.
  induction p as [p IH | p IH |]; intros x; cbn [iter_pos].
  - rewrite !IH, Pos2Nat.inj_xI.
    replace (S (2 * Pos.to_nat p)) with (Pos.to_nat p + S (Pos.to_nat p))%nat by lia.
    now rewrite Nat.iter_add, Nat.iter_succ_r.
  - rewrite !IH, Pos2Nat.inj_xO.
    replace (2 * Pos.to_nat p)%nat with (Pos.to_nat p + Pos.to_nat p)%nat by lia.
    now rewrite Nat.iter_add.
  - reflexivity.
Qed.

Lemma shr_1_nonneg m r s :
  0 <= m ->
  shr_1 (Build_shr_record m r s) = Build_shr_record (m / 2) (Z.odd m) (r || s).
Proof.
  intros Hm. rewrite <- Z.div2_div.
  destruct m as [| [p | p |] | p]; try reflexivity; lia.
Qed.

Lemma shr_iter n : forall m r s,
  0 <= m ->
  let res := Nat.iter n shr_1 (Build_shr_record m r s) in
  shr_m res = m / 2 ^ Z.of_nat n /\
  (r = false -> s = false -> m mod 2 ^ Z.of_nat n = 0 ->
   shr_r res = false /\ shr_s res = false).
Proof.
  induction n as [| n IH]; intros m r s Hm.
  - cbn. rewrite Z.div_1_r. auto.
  - cbv zeta. rewrite Nat.iter_succ_r, shr_1_nonneg by assumption.
    assert (H2 : 0 <= m / 2) by (apply Z.div_pos; lia).
    destruct (IH (m / 2) (Z.odd m) (r || s) H2) as [Hq Hex].
    rewrite Nat2Z.inj_succ, Z.pow_succ_r by lia.
    assert (Hp : 0 < 2 ^ Z.of_nat n) by (apply Z.pow_pos_nonneg; lia).
    split.
    + rewrite Hq, Z.div_div by lia. reflexivity.
    + intros -> -> Hmod. apply Hex.
      * rewrite Zodd_mod. apply Z.eqb_neq.
        rewrite Z.rem_mul_r in Hmod by lia.
        pose proof (Z.mod_pos_bound m 2). pose proof (Z.mod_pos_bound (m / 2) (2 ^ Z.of_nat n)).
        lia.
      * reflexivity.
      * rewrite Z.rem_mul_r in Hmod by lia.
        pose proof (Z.mod_pos_bound m 2). pose proof (Z.mod_pos_bound (m / 2) (2 ^ Z.of_nat n)).
        lia.
Qed.

(** A shift by [k] divides by [2 ^ k], for [k > 0]; it changes nothing
    otherwise. *)
Lemma shr_spec m r s e k :
  0 <= m ->
  let '(res, e') := shr (Build_shr_record m r s) e k in
  e' = e + Z.max k 0 /\
  shr_m res = m / 2 ^ Z.max k 0 /\
  (r = false -> s = false -> m mod 2 ^ Z.max k 0 = 0 ->
   loc_of_shr_record res = loc_Exact).
Proof.
  intros Hm. destruct k as [| p | p]; cbn [shr].
  - cbn. rewrite Z.div_1_r, Z.add_0_r. repeat split. now intros -> ->.
  - rewrite iter_pos_nat.
    destruct (shr_iter (Pos.to_nat p) m r s Hm) as [Hq Hex].
    rewrite positive_nat_Z in Hq, Hex.
    replace (Z.max (Zpos p) 0) with (Zpos p) by lia.
    repeat split; [assumption |].
    intros Hr Hs Hmod. destruct (Hex Hr Hs Hmod) as [Hr' Hs'].
    destruct (Nat.iter (Pos.to_nat p) shr_1 _) as [m' r' s'].
    cbn in Hr', Hs'. now subst.
  - cbn. rewrite Z.div_1_r, Z.add_0_r. repeat split. now intros -> ->.
Qed.

Lemma round_nearest_even_range m l :
  m <= round_nearest_even m l <= m + 1.
Proof.
  destruct l as [| []]; cbn; try lia. destruct (Z.even m); lia.
Qed.

End Shift.

(** Rounding to the format, seen through [scaled]. *)
Section Rounding.

Lemma shr_fexp_spec m e l :
  0 <= m ->
  let '(res, e') := shr_fexp prec emax m e l in
  e' = e + shift_of m e /\
  shr_m res = m / 2 ^ shift_of m e /\
  (l = loc_Exact -> m mod 2 ^ shift_of m e = 0 ->
   loc_of_shr_record res = loc_Exact).
Proof.
  intros Hm. unfold shr_fexp, shift_of. rewrite fexp_eq.
  destruct l as [| []]; cbn [shr_record_of_loc];
    match goal with
    | |- context [shr (Build_shr_record m ?r ?s) e ?k] =>
        pose proof (shr_spec m r s e k Hm) as H;
        destruct (shr (Build_shr_record m r s) e k) as [res e']
    end;
    destruct H as (He & Hq & Hex); repeat split; try assumption;
    try discriminate.
  intros _ Hmod. now apply Hex.
Qed.

(** [binary_round_aux] shifts, rounds the mantissa to a neighbour, and
    shifts again. *)
Lemma binary_round_aux_unfold s m e l :
  0 <= m ->
  exists m2,
    let k1 := shift_of m e in
    let e1 := e + k1 in
    let k2 := shift_of m2 e1 in
    m / 2 ^ k1 <= m2 <= m / 2 ^ k1 + 1 /\
    (l = loc_Exact -> m mod 2 ^ k1 = 0 -> m2 = m / 2 ^ k1) /\
    binary_round_aux prec emax s m e l = finish s (m2 / 2 ^ k2) (e1 + k2).
Proof.
  intros Hm. unfold binary_round_aux.
  pose proof (shr_fexp_spec m e l Hm) as H1.
  destruct (shr_fexp prec emax m e l) as [res1 e1].
  destruct H1 as (He1 & Hq1 & Hex1).
  set (m2 := round_nearest_even (shr_m res1) (loc_of_shr_record res1)).
  assert (Hq : 0 <= m / 2 ^ shift_of m e).
  { apply Z.div_pos; [assumption |]. apply Z.pow_pos_nonneg; [lia |].
    unfold shift_of. lia. }
  assert (Hr : shr_m res1 <= m2 <= shr_m res1 + 1)
    by apply round_nearest_even_range.
  assert (Hm2 : 0 <= m2) by lia.
  pose proof (shr_fexp_spec m2 e1 loc_Exact Hm2) as H2.
  destruct (shr_fexp prec emax m2 e1 loc_Exact) as [res2 e2].
  destruct H2 as (He2 & Hq2 & _).
  exists m2. cbv zeta. rewrite <- He1, <- Hq1.
  split; [assumption |]. split.
  - intros Hl Hmod. unfold m2. now rewrite (Hex1 Hl Hmod).
  - rewrite <- Hq2, <- He2. unfold finish.
    change (emax - prec) with 971. reflexivity.
Qed.

Lemma finish_sign s m e :
  0 <= m ->
  match finish s m e with
  | S754_zero s' | S754_infinity s' | S754_finite s' _ _ => s' = s
  | S754_nan => False
  end.
Proof.
  intros Hm. unfold finish. destruct m; [reflexivity | | lia].
  now destruct (e <=? 971).
Qed.

(** The result of rounding a non-negative mantissa carries the sign it
    was given and is never [NaN]. *)
Lemma binary_round_aux_sign s m e l :
  0 <= m ->
  match binary_round_aux prec emax s m e l with
  | S754_zero s' | S754_infinity s' | S754_finite s' _ _ => s' = s
  | S754_nan => False
  end.
Proof.
  intros Hm.
  destruct (binary_round_aux_unfold s m e l Hm) as (m2 & Hr & _ & ->).
  apply finish_sign. apply Z.div_pos.
  - assert (0 <= m / 2 ^ shift_of m e); [| lia].
    apply Z.div_pos; [assumption |]. apply Z.pow_pos_nonneg; [lia |].
    unfold shift_of. lia.
  - apply Z.pow_pos_nonneg; [lia |]. unfold shift_of. lia.
Qed.

Lemma shift_of_nonneg m e : 0 <= shift_of m e.
Proof. unfold shift_of. lia. Qed.

(** Below a representable bound, the grid point reached by a shift
    stays below the bound, and so does the next grid point when bits
    were lost. *)
Lemma grid_upper M E k mb eb :
  0 <= E + bias -> 0 <= k -> E + k = fexp64 (digits M + E) ->
  bounded prec emax mb eb = true ->
  scaled (Zpos M) E <= scaled (Zpos mb) eb ->
  E + k <= eb /\
  scaled (Zpos M / 2 ^ k) (E + k) <= scaled (Zpos mb) eb /\
  (Zpos M mod 2 ^ k <> 0 ->
   scaled (Zpos M / 2 ^ k + 1) (E + k) <= scaled (Zpos mb) eb).
Proof.
  intros HE Hk Hc Hb Hle.
  pose proof (bounded_bias _ _ Hb) as Hbias.
  apply bounded_spec in Hb as [Hcb _].
  assert (Hexp : E + k <= eb).
  { destruct (Z.le_gt_cases (E + k) eb) as [|Hgt]; [assumption | exfalso].
    assert (digits mb + eb < digits M + E) by (unfold fexp64 in *; lia).
    pose proof (scaled_lt_by_digits mb eb M E Hbias HE). lia. }
  split; [assumption |].
  set (j := eb - (E + k)).
  assert (HP : 0 < 2 ^ k) by (apply pow2_gt0; lia).
  assert (HJ : 0 < 2 ^ j) by (apply pow2_gt0; unfold j; lia).
  assert (HW : 0 < 2 ^ (E + bias)) by (apply pow2_gt0; lia).
  assert (HB : scaled (Zpos mb) eb = Zpos mb * 2 ^ j * 2 ^ k * 2 ^ (E + bias)).
  { unfold scaled. replace (eb + bias) with (j + (k + (E + bias))) by (unfold j; lia).
    rewrite (Z.pow_add_r 2 j), (Z.pow_add_r 2 k) by lia. ring. }
  assert (HX : forall x, scaled x (E + k) = x * 2 ^ k * 2 ^ (E + bias)).
  { intros x. now apply scaled_split. }
  rewrite !HX, HB. rewrite HB in Hle. unfold scaled in Hle.
  apply Z.mul_le_mono_pos_r in Hle; [| assumption].
  pose proof (Z.div_mod (Zpos M) (2 ^ k)) as Hdm.
  pose proof (Z.mod_pos_bound (Zpos M) (2 ^ k) HP) as Hrem.
  set (q := Zpos M / 2 ^ k) in *. set (r := Zpos M mod 2 ^ k) in *.
  set (P := 2 ^ k) in *. set (N := Zpos mb * 2 ^ j) in *.
  assert (Hdm' : Zpos M = P * q + r) by (apply Hdm; lia).
  split.
  - apply Z.mul_le_mono_nonneg_r; [lia |].
    apply Z.mul_le_mono_nonneg_r; [lia |]. nia.
  - intros Hr.
    apply Z.mul_le_mono_nonneg_r; [lia |].
    apply Z.mul_le_mono_nonneg_r; [lia |]. nia.
Qed.

(** Above a representable bound, the grid point reached by a shift
    stays above the bound. *)
Lemma grid_lower M E k mb eb :
  0 <= E + bias -> 0 <= k -> E + k = fexp64 (digits M + E) ->
  bounded prec emax mb eb = true ->
  scaled (Zpos mb) eb <= scaled (Zpos M) E ->
  scaled (Zpos mb) eb <= scaled (Zpos M / 2 ^ k) (E + k).
Proof.
  intros HE Hk Hc Hb Hle.
  pose proof (bounded_bias _ _ Hb) as Hbias.
  apply bounded_spec in Hb as [Hcb _].
  assert (HP : 0 < 2 ^ k) by (apply pow2_gt0; lia).
  assert (HW : 0 < 2 ^ (E + bias)) by (apply pow2_gt0; lia).
  assert (HX : forall x, scaled x (E + k) = x * 2 ^ k * 2 ^ (E + bias)).
  { intros x. now apply scaled_split. }
  pose proof (digits_pos M) as HdM. pose proof (digits_bounds M) as HbM.
  destruct (Z.le_gt_cases (E + k) eb) as [Hexp | Hexp].
  - set (j := eb - (E + k)).
    assert (HJ : 0 < 2 ^ j) by (apply pow2_gt0; unfold j; lia).
    assert (HB : scaled (Zpos mb) eb = Zpos mb * 2 ^ j * 2 ^ k * 2 ^ (E + bias)).
    { unfold scaled. replace (eb + bias) with (j + (k + (E + bias))) by (unfold j; lia).
      rewrite (Z.pow_add_r 2 j), (Z.pow_add_r 2 k) by lia. ring. }
    rewrite HX, HB. rewrite HB in Hle. unfold scaled in Hle.
    apply Z.mul_le_mono_pos_r in Hle; [| assumption].
    pose proof (Z.div_mod (Zpos M) (2 ^ k)) as Hdm.
    pose proof (Z.mod_pos_bound (Zpos M) (2 ^ k) HP) as Hrem.
    set (q := Zpos M / 2 ^ k) in *. set (r := Zpos M mod 2 ^ k) in *.
    set (P := 2 ^ k) in *. set (N := Zpos mb * 2 ^ j) in *.
    assert (Hdm' : Zpos M = P * q + r) by (apply Hdm; lia).
    apply Z.mul_le_mono_nonneg_r; [lia |].
    apply Z.mul_le_mono_nonneg_r; [lia |]. nia.
  - assert (Hd : digits mb + eb < digits M + E) by (unfold fexp64 in *; lia).
    assert (Hk' : k <= digits M - 1) by (unfold fexp64 in *; lia).
    assert (Hq : 2 ^ (digits M - 1 - k) <= Zpos M / 2 ^ k).
    { apply Z.div_le_lower_bound; [assumption |].
      rewrite <- Z.pow_add_r by lia.
      replace (k + (digits M - 1 - k)) with (digits M - 1) by lia. lia. }
    pose proof (scaled_upper mb eb Hbias) as Hub.
    assert (Hstep : scaled (2 ^ (digits M - 1 - k)) (E + k)
                      <= scaled (Zpos M / 2 ^ k) (E + k))
      by (apply scaled_mono; [lia | assumption]).
    rewrite scaled_pow in Hstep by lia.
    assert (2 ^ (digits mb + eb + bias) <= 2 ^ (digits M - 1 - k + (E + k) + bias))
      by (apply Z.pow_le_mono_r; lia).
    lia.
Qed.

End Rounding.

Section RoundBounds.

Lemma scaled_shift_le m e k :
  0 <= m -> 0 <= k -> 0 <= e + bias ->
  scaled (m / 2 ^ k) (e + k) <= scaled m e.
Proof.
  intros Hm Hk He. rewrite scaled_split by assumption. unfold scaled.
  apply Z.mul_le_mono_nonneg_r; [apply Z.lt_le_incl, pow2_gt0; assumption |].
  rewrite Z.mul_comm. apply Z.mul_div_le. now apply pow2_gt0.
Qed.

Lemma shift_of_aligned m e :
  e <= fexp64 (digits m + e) ->
  e + shift_of (Zpos m) e = fexp64 (digits m + e).
Proof. unfold shift_of. cbn [Zdigits2]. fold (digits m). lia. Qed.

Lemma shift_of_cases m e :
  (shift_of (Zpos m) e = 0 /\ fexp64 (digits m + e) <= e) \/
  (0 < shift_of (Zpos m) e /\
   e + shift_of (Zpos m) e = fexp64 (digits m + e)).
Proof. unfold shift_of. cbn [Zdigits2]. fold (digits m). lia. Qed.

(** Rounding an exact value that does not exceed a representable bound
    gives a result that does not exceed the bound. *)
Lemma round_upper m e mb eb :
  0 <= e + bias -> e <= fexp64 (digits m + e) ->
  bounded prec emax mb eb = true ->
  scaled (Zpos m) e <= scaled (Zpos mb) eb ->
  binary_round_aux prec emax false (Zpos m) e loc_Exact = S754_zero false \/
  exists m3 e3,
    binary_round_aux prec emax false (Zpos m) e loc_Exact
      = S754_finite false m3 e3 /\
    scaled (Zpos m3) e3 <= scaled (Zpos mb) eb.
Proof.
  intros HE Hal Hb Hle.
  destruct (binary_round_aux_unfold false (Zpos m) e loc_Exact)
    as (m2 & Hr & Hex & ->); [lia |].
  cbv zeta in Hr, Hex.
  pose proof (shift_of_nonneg (Zpos m) e) as Hk1.
  pose proof (shift_of_aligned m e Hal) as Hc1.
  set (k1 := shift_of (Zpos m) e) in *.
  destruct (grid_upper m e k1 mb eb HE Hk1 Hc1 Hb Hle) as (He1 & Hq1 & Hq1').
  assert (HE1 : 0 <= e + k1 + bias) by lia.
  assert (Hm2 : scaled m2 (e + k1) <= scaled (Zpos mb) eb).
  { destruct (Z.eq_dec (Zpos m mod 2 ^ k1) 0) as [Hz | Hnz].
    - rewrite (Hex eq_refl Hz). assumption.
    - specialize (Hq1' Hnz).
      apply Z.le_trans with (2 := Hq1'). apply scaled_mono; lia. }
  assert (Hq1pos : 0 <= Zpos m / 2 ^ k1)
    by (apply Z.div_pos; [lia | now apply pow2_gt0]).
  destruct m2 as [| p2 | p2]; [now left | | lia].
  pose proof (shift_of_nonneg (Zpos p2) (e + k1)) as Hk2.
  set (k2 := shift_of (Zpos p2) (e + k1)) in *.
  assert (Hm3 : scaled (Zpos p2 / 2 ^ k2) (e + k1 + k2) <= scaled (Zpos mb) eb).
  { apply Z.le_trans with (2 := Hm2). apply scaled_shift_le; lia. }
  assert (He3 : e + k1 + k2 <= 971).
  { pose proof (proj1 (bounded_spec mb eb) Hb) as [_ Hmax].
    destruct (shift_of_cases p2 (e + k1)) as [[Hz _] | [_ Hc2]];
      fold k2 in Hz || fold k2 in Hc2.
    - lia.
    - destruct (grid_upper p2 (e + k1) k2 mb eb HE1 Hk2 Hc2 Hb Hm2) as (He2 & _).
      lia. }
  unfold finish.
  destruct (Zpos p2 / 2 ^ k2) as [| p3 | p3] eqn:Hp3; [now left | | ].
  - right. exists p3, (e + k1 + k2).
    destruct (Z.leb_spec (e + k1 + k2) 971); [| lia]. split; [reflexivity | assumption].
  - assert (0 <= Zpos p2 / 2 ^ k2)
      by (apply Z.div_pos; [lia | now apply pow2_gt0]).
    lia.
Qed.

(** Rounding an exact value that is at least a representable bound
    gives a result that is at least the bound, possibly infinite. *)
Lemma round_lower m e mb eb :
  0 <= e + bias -> e <= fexp64 (digits m + e) ->
  bounded prec emax mb eb = true ->
  scaled (Zpos mb) eb <= scaled (Zpos m) e ->
  binary_round_aux prec emax false (Zpos m) e loc_Exact = S754_infinity false \/
  exists m3 e3,
    binary_round_aux prec emax false (Zpos m) e loc_Exact
      = S754_finite false m3 e3 /\
    scaled (Zpos mb) eb <= scaled (Zpos m3) e3.
Proof.
  intros HE Hal Hb Hle.
  destruct (binary_round_aux_unfold false (Zpos m) e loc_Exact)
    as (m2 & Hr & _ & ->); [lia |].
  cbv zeta in Hr.
  pose proof (bounded_below_top mb eb Hb) as [HBpos _].
  pose proof (shift_of_nonneg (Zpos m) e) as Hk1.
  pose proof (shift_of_aligned m e Hal) as Hc1.
  set (k1 := shift_of (Zpos m) e) in *.
  pose proof (grid_lower m e k1 mb eb HE Hk1 Hc1 Hb Hle) as Hq1.
  assert (HE1 : 0 <= e + k1 + bias) by lia.
  assert (Hm2 : scaled (Zpos mb) eb <= scaled m2 (e + k1)).
  { apply Z.le_trans with (1 := Hq1). apply scaled_mono; lia. }
  destruct m2 as [| p2 | p2].
  - unfold scaled in Hm2, HBpos. lia.
  - pose proof (shift_of_nonneg (Zpos p2) (e + k1)) as Hk2.
    set (k2 := shift_of (Zpos p2) (e + k1)) in *.
    assert (Hm3 : scaled (Zpos mb) eb <= scaled (Zpos p2 / 2 ^ k2) (e + k1 + k2)).
    { destruct (shift_of_cases p2 (e + k1)) as [[Hz _] | [_ Hc2]];
        fold k2 in Hz || fold k2 in Hc2.
      - rewrite Hz, Z.pow_0_r, Z.div_1_r, Z.add_0_r. assumption.
      - now apply grid_lower. }
    unfold finish.
    destruct (Zpos p2 / 2 ^ k2) as [| p3 | p3] eqn:Hp3.
    + unfold scaled in Hm3, HBpos. lia.
    + destruct (e + k1 + k2 <=? 971); [right | now left].
      exists p3, (e + k1 + k2). split; [reflexivity | assumption].
    + assert (0 <= Zpos p2 / 2 ^ k2)
        by (apply Z.div_pos; [lia | now apply pow2_gt0]).
      lia.
  - assert (0 <= Zpos m / 2 ^ k1)
      by (apply Z.div_pos; [lia | now apply pow2_gt0]).
    lia.
Qed.

End RoundBounds.

Section RoundKeys.

Lemma scaled_nonneg m e : 0 <= scaled (Zpos m) e.
Proof. unfold scaled. apply Z.mul_nonneg_nonneg; [lia | apply Z.pow_nonneg; lia]. Qed.

Lemma key_round_upper m e mb eb :
  0 <= e + bias -> e <= fexp64 (digits m + e) ->
  bounded prec emax mb eb = true ->
  scaled (Zpos m) e <= scaled (Zpos mb) eb ->
  let r := binary_round_aux prec emax false (Zpos m) e loc_Exact in
  r <> S754_nan /\ 0 <= key r <= scaled (Zpos mb) eb.
Proof.
  intros HE Hal Hb Hle r. subst r.
  pose proof (bounded_below_top mb eb Hb) as [HB _].
  destruct (round_upper m e mb eb HE Hal Hb Hle) as [-> | (m3 & e3 & -> & H3)].
  - split; [discriminate | cbn [key]; lia].
  - split; [discriminate |]. cbn [key cond_Zopp].
    pose proof (scaled_nonneg m3 e3). lia.
Qed.

Lemma key_round_lower m e mb eb :
  0 <= e + bias -> e <= fexp64 (digits m + e) ->
  bounded prec emax mb eb = true ->
  scaled (Zpos mb) eb <= scaled (Zpos m) e ->
  let r := binary_round_aux prec emax false (Zpos m) e loc_Exact in
  r <> S754_nan /\ scaled (Zpos mb) eb <= key r.
Proof.
  intros HE Hal Hb Hle r. subst r.
  pose proof (bounded_below_top mb eb Hb) as [_ HB].
  destruct (round_lower m e mb eb HE Hal Hb Hle) as [-> | (m3 & e3 & -> & H3)].
  - split; [discriminate | cbn [key cond_Zopp]; lia].
  - split; [discriminate | assumption].
Qed.

Lemma key_round_negative m e l :
  let r := binary_round_aux prec emax true (Zpos m) e l in
  r <> S754_nan /\ key r <= 0.
Proof.
  cbv zeta.
  pose proof (binary_round_aux_sign true (Zpos m) e l) as Hs.
  assert (Htop : 0 < top) by (apply pow2_gt0; lia).
  destruct (binary_round_aux prec emax true (Zpos m) e l) as [s | s | | s m3 e3];
    try (specialize (Hs ltac:(lia)); subst s).
  - split; [discriminate | cbn; lia].
  - split; [discriminate | cbn [key cond_Zopp]; lia].
  - exfalso. apply Hs. lia.
  - split; [discriminate |]. cbn [key cond_Zopp].
    pose proof (scaled_nonneg m3 e3). lia.
Qed.

End RoundKeys.

(** Multiplication and addition. *)
Section Operations.

Lemma digits_mul a b : digits a + digits b - 1 <= digits (a * b).
Proof.
  pose proof (digits_bounds a) as [Ha _]. pose proof (digits_bounds b) as [Hb _].
  pose proof (digits_bounds (a * b)) as [_ Hab].
  pose proof (digits_pos a). pose proof (digits_pos b). pose proof (digits_pos (a * b)).
  assert (Hlow : 2 ^ (digits a - 1 + (digits b - 1)) <= Zpos (a * b)).
  { rewrite Z.pow_add_r by lia. rewrite Pos2Z.inj_mul.
    apply Z.mul_le_mono_nonneg; try assumption;
      apply Z.lt_le_incl, pow2_gt0; lia. }
  assert (Hlt : 2 ^ (digits a - 1 + (digits b - 1)) < 2 ^ digits (a * b)) by lia.
  apply Z.pow_lt_mono_r_iff in Hlt; lia.
Qed.

Lemma scaled_mul a ea b eb :
  0 <= ea + bias -> 0 <= eb + bias -> 0 <= ea + eb + bias ->
  scaled (a * b) (ea + eb) * 2 ^ bias = scaled a ea * scaled b eb.
Proof.
  intros Ha Hb Hab. unfold scaled.
  assert (H : 2 ^ (ea + eb + bias) * 2 ^ bias = 2 ^ (ea + bias) * 2 ^ (eb + bias)).
  { rewrite <- !Z.pow_add_r by (unfold bias in *; lia). f_equal. lia. }
  rewrite <- Z.mul_assoc, H. ring.
Qed.

(** Multiplying by a positive factor cannot carry a product above a
    representable bound that the exact product does not exceed. *)
Lemma SFmul_upper x mc ec mb eb :
  valid_binary x = true -> x <> S754_nan -> key x < top ->
  bounded prec emax mc ec = true -> bounded prec emax mb eb = true ->
  key x * scaled (Zpos mc) ec <= scaled (Zpos mb) eb * 2 ^ bias ->
  SF64mul x (S754_finite false mc ec) <> S754_nan /\
  key (SF64mul x (S754_finite false mc ec)) <= scaled (Zpos mb) eb.
Proof.
  intros Vx Nx Htop Hc Hb Hle.
  pose proof (bounded_below_top mb eb Hb) as [HB _].
  assert (HT : 0 < top) by (apply pow2_gt0; lia).
  destruct x as [sx | sx | | sx mx ex]; [| | congruence |];
    cbn [SF64mul SFmul].
  - split; [discriminate | cbn [key]; lia].
  - destruct sx; cbn [xorb key cond_Zopp] in *; [| lia].
    split; [discriminate | lia].
  - cbn [valid_binary] in Vx.
    destruct sx; cbn [xorb].
    + pose proof (key_round_negative (mx * mc) (ex + ec) loc_Exact) as [Hn Hk].
      split; [assumption | lia].
    + pose proof (bounded_bias _ _ Vx) as Bx. pose proof (bounded_bias _ _ Hc) as Bc.
      assert (HE : 0 <= ex + ec + bias).
      { apply bounded_spec in Vx as [Cx _]. apply bounded_spec in Hc as [Cc _].
        unfold fexp64, bias in *. lia. }
      assert (Hal : ex + ec <= fexp64 (digits (mx * mc) + (ex + ec))).
      { pose proof (digits_mul mx mc). pose proof (digits_pos mx). pose proof (digits_pos mc).
        apply bounded_spec in Vx as [Cx _]. apply bounded_spec in Hc as [Cc _].
        unfold fexp64 in *. lia. }
      assert (Hval : scaled (Zpos (mx * mc)) (ex + ec) <= scaled (Zpos mb) eb).
      { cbn [key cond_Zopp] in Hle.
        rewrite Pos2Z.inj_mul.
        rewrite <- (scaled_mul (Zpos mx) ex (Zpos mc) ec Bx Bc HE) in Hle.
        apply Z.mul_le_mono_pos_r in Hle; [assumption | apply pow2_gt0; unfold bias; lia]. }
      destruct (key_round_upper (mx * mc) (ex + ec) mb eb HE Hal Hb Hval) as [Hn Hk].
      split; [assumption | lia].
Qed.

Lemma nat_iter_xO n m :
  Zpos (Nat.iter n xO m) = Zpos m * 2 ^ Z.of_nat n /\
  digits (Nat.iter n xO m) = digits m + Z.of_nat n.
Proof.
  induction n as [| n [IHv IHd]].
  - change (Nat.iter 0 xO m) with m. change (Z.of_nat 0) with 0.
    rewrite Z.pow_0_r. lia.
  - rewrite Nat2Z.inj_succ, Z.pow_succ_r, Nat.iter_succ by lia. split.
    + rewrite Pos2Z.inj_xO, IHv. ring.
    + unfold digits in *. cbn [digits2_pos]. rewrite Pos2Z.inj_succ, IHd. lia.
Qed.

Lemma iter_xO_spec m d : Zpos (Pos.iter xO m d) = Zpos m * 2 ^ Zpos d.
Proof.
  rewrite Pos2Nat.inj_iter, <- (positive_nat_Z d). apply nat_iter_xO.
Qed.

Lemma iter_xO_digits m d : digits (Pos.iter xO m d) = digits m + Zpos d.
Proof.
  rewrite Pos2Nat.inj_iter, <- (positive_nat_Z d). apply nat_iter_xO.
Qed.

(** [shl_align] lowers the exponent to the target when the target is
    lower, keeping the value. *)
Lemma shl_align_spec m e e' :
  let '(m', e'') := shl_align m e e' in
  e'' = Z.min e e' /\
  Zpos m' = Zpos m * 2 ^ (e - e'') /\
  digits m' = digits m + (e - e'').
Proof.
  unfold shl_align. destruct (e' - e) as [| d | d] eqn:Hd.
  - rewrite Z.sub_diag, Z.pow_0_r. repeat split; lia.
  - rewrite Z.sub_diag, Z.pow_0_r. repeat split; lia.
  - replace (e - e') with (Zpos d) by lia.
    repeat split; [lia | apply iter_xO_spec | apply iter_xO_digits].
Qed.

Lemma shl_align_scaled m e e' :
  0 <= Z.min e e' + bias ->
  scaled (Zpos (fst (shl_align m e e'))) (snd (shl_align m e e')) = scaled (Zpos m) e.
Proof.
  intros Hb. pose proof (shl_align_spec m e e') as H.
  destruct (shl_align m e e') as [m' e'']. destruct H as (He & Hm & _).
  cbn [fst snd]. rewrite Hm. unfold scaled.
  replace (e + bias) with ((e - e'') + (e'' + bias)) by lia.
  rewrite (Z.pow_add_r 2 (e - e'') (e'' + bias)) by lia. ring.
Qed.

(** The sum of two positive numbers is at least each of them. *)
Lemma SFadd_lower x y :
  valid_binary x = true -> valid_binary y = true ->
  0 < key x -> 0 < key y ->
  SF64add x y <> S754_nan /\
  key x <= key (SF64add x y) /\ key y <= key (SF64add x y).
Proof.
  intros Vx Vy Hx Hy.
  assert (HT : 0 < top) by (apply pow2_gt0; lia).
  destruct x as [sx | [] | | [] mx ex]; cbn [key cond_Zopp] in Hx; try lia;
    try (pose proof (scaled_nonneg mx ex); lia).
  - (* x is +infinity *)
    destruct y as [sy | [] | | [] my ey]; cbn [key cond_Zopp] in Hy; try lia;
      try (pose proof (scaled_nonneg my ey); lia);
      cbn [SF64add SFadd key cond_Zopp valid_binary] in *.
    + split; [discriminate | lia].
    + pose proof (bounded_below_top my ey Vy). split; [discriminate | lia].
  - destruct y as [sy | [] | | [] my ey]; cbn [key cond_Zopp] in Hy; try lia;
      try (pose proof (scaled_nonneg my ey); lia);
      cbn [valid_binary] in *.
    + cbn [SF64add SFadd key cond_Zopp].
      pose proof (bounded_below_top mx ex Vx). split; [discriminate | lia].
    + (* both finite *)
      pose proof (bounded_bias _ _ Vx) as Bx. pose proof (bounded_bias _ _ Vy) as By.
      unfold SF64add, SFadd. cbn [cond_Zopp].
      set (ez := Z.min ex ey).
      assert (Bz : 0 <= ez + bias) by (unfold ez; lia).
      pose proof (shl_align_spec mx ex ez) as Hax.
      pose proof (shl_align_scaled mx ex ez) as Hsx.
      pose proof (shl_align_spec my ey ez) as Hay.
      pose proof (shl_align_scaled my ey ez) as Hsy.
      destruct (shl_align mx ex ez) as [mx' ex'].
      destruct (shl_align my ey ez) as [my' ey'].
      destruct Hax as (Hex' & _). destruct Hay as (Hey' & _).
      cbn [fst snd] in *.
      replace ex' with ez in Hsx by (unfold ez in *; lia).
      replace ey' with ez in Hsy by (unfold ez in *; lia).
      specialize (Hsx ltac:(unfold ez in *; lia)).
      specialize (Hsy ltac:(unfold ez in *; lia)).
      change (Zpos mx' + Zpos my') with (Zpos (mx' + my')).
      cbn [binary_normalize]. unfold binary_round.
      rewrite fexp_eq. fold (digits (mx' + my')).
      set (target := fexp64 (digits (mx' + my') + ez)).
      pose proof (shl_align_spec (mx' + my') ez target) as Haz.
      pose proof (shl_align_scaled (mx' + my') ez target) as Hsz.
      destruct (shl_align (mx' + my') ez target) as [mz ez'].
      destruct Haz as (Hez' & _ & Hdz). cbn [fst snd] in Hsz.
      assert (Btarget : 0 <= target + bias) by (unfold target, fexp64, bias; lia).
      specialize (Hsz ltac:(lia)).
      assert (HE : 0 <= ez' + bias) by lia.
      assert (Hal : ez' <= fexp64 (digits mz + ez')).
      { rewrite Hdz. replace (digits (mx' + my') + (ez - ez') + ez')
          with (digits (mx' + my') + ez) by lia.
        fold target. lia. }
      assert (Hsum : scaled (Zpos mz) ez'
                     = scaled (Zpos mx) ex + scaled (Zpos my) ey).
      { rewrite Hsz, <- Hsx, <- Hsy. unfold scaled.
        rewrite Pos2Z.inj_add. ring. }
      assert (Hlx : scaled (Zpos mx) ex <= scaled (Zpos mz) ez') by lia.
      assert (Hly : scaled (Zpos my) ey <= scaled (Zpos mz) ez') by lia.
      destruct (key_round_lower mz ez' mx ex HE Hal Vx Hlx) as [Hn Hkx].
      destruct (key_round_lower mz ez' my ey HE Hal Vy Hly) as [_ Hky].
      cbn [key cond_Zopp]. auto.
Qed.

End Operations.

(** Primitive floats, through their specification. *)
Section Primitive.

Lemma SF_of_float x s : Prim2SF x = s -> x = SF2Prim s.
Proof. intros <-. symmetry. apply SF2Prim_Prim2SF. Qed.

Lemma is_nan_spec x : is_nan x = true <-> Prim2SF x = S754_nan.
Proof.
  unfold is_nan. rewrite eqb_spec. unfold SFeqb.
  pose proof (Prim2SF_valid x) as V.
  destruct (Prim2SF x) as [s | s | | s m e] eqn:E.
  - cbn. split; discriminate.
  - destruct s; cbn; split; discriminate.
  - cbn. split; reflexivity.
  - rewrite SFcompare_key by (assumption || discriminate).
    rewrite Z.compare_refl. cbn. split; discriminate.
Qed.

Lemma is_nan_false x : is_nan x = false <-> Prim2SF x <> S754_nan.
Proof.
  rewrite <- is_nan_spec. destruct (is_nan x); split; congruence.
Qed.

Lemma compare_rank x y :
  is_nan x = false -> is_nan y = false ->
  SFcompare (Prim2SF x) (Prim2SF y) = Some (rank x ?= rank y).
Proof.
  intros Hx Hy. apply SFcompare_key;
    try apply Prim2SF_valid; now apply is_nan_false.
Qed.

Lemma ltb_rank x y :
  is_nan x = false -> is_nan y = false ->
  (x <? y)%float = (rank x <? rank y).
Proof.
  intros Hx Hy. rewrite ltb_spec. unfold SFltb.
  rewrite compare_rank by assumption. unfold Z.ltb.
  now destruct (rank x ?= rank y).
Qed.

Lemma leb_rank x y :
  is_nan x = false -> is_nan y = false ->
  (x <=? y)%float = (rank x <=? rank y).
Proof.
  intros Hx Hy. rewrite leb_spec. unfold SFleb.
  rewrite compare_rank by assumption. unfold Z.leb.
  now destruct (rank x ?= rank y).
Qed.

Lemma rank_positive_not_nan x : 0 < rank x -> is_nan x = false.
Proof.
  intros H. apply is_nan_false. intros E. unfold rank in H. rewrite E in H.
  cbn in H. lia.
Qed.

(** A number strictly between zero and infinity is finite and positive. *)
Lemma rank_finite_positive x :
  0 < rank x < top ->
  exists m e, Prim2SF x = S754_finite false m e /\
              bounded prec emax m e = true /\ rank x = scaled (Zpos m) e.
Proof.
  intros H. unfold rank in *. pose proof (Prim2SF_valid x) as V.
  assert (HT : 0 < top) by (apply pow2_gt0; lia).
  destruct (Prim2SF x) as [s | [] | | [] m e]; cbn [key cond_Zopp valid_binary] in *;
    try lia.
  - pose proof (scaled_nonneg m e). lia.
  - now exists m, e.
Qed.

(** [x * c <= b] as soon as the exact product is at most [b], for
    finite positive [c] and [b]. *)
Lemma mul_upper x c b :
  is_nan x = false -> rank x < top ->
  0 < rank c < top -> 0 < rank b < top ->
  rank x * rank c <= rank b * 2 ^ bias ->
  is_nan (x * c)%float = false /\ rank (x * c)%float <= rank b.
Proof.
  intros Nx Hx Hc Hb Hle.
  destruct (rank_finite_positive c Hc) as (mc & ec & Ec & Vc & Rc).
  destruct (rank_finite_positive b Hb) as (mb & eb & Eb & Vb & Rb).
  rewrite Rc, Rb in Hle. rewrite Rb. rewrite is_nan_false.
  unfold rank. rewrite mul_spec, Ec.
  apply SFmul_upper; try assumption.
  - apply Prim2SF_valid.
  - now apply is_nan_false.
Qed.

(** The sum of two positive numbers is at least each of them. *)
Lemma add_lower x y :
  0 < rank x -> 0 < rank y ->
  is_nan (x + y)%float = false /\
  rank x <= rank (x + y)%float /\ rank y <= rank (x + y)%float.
Proof.
  intros Hx Hy. rewrite is_nan_false. unfold rank at 2 4.
  rewrite add_spec. apply SFadd_lower; try apply Prim2SF_valid; assumption.
Qed.

Lemma is_zero_spec x : is_zero x = true -> exists s, Prim2SF x = S754_zero s.
Proof.
  unfold is_zero. rewrite eqb_spec.
  change (Prim2SF zero) with (S754_zero false).
  destruct (Prim2SF x) as [s | [] | | [] m e]; cbn; try discriminate.
  intros _. now exists s.
Qed.

Lemma is_infinity_spec x :
  is_infinity x = true <-> exists s, Prim2SF x = S754_infinity s.
Proof.
  unfold is_infinity. rewrite eqb_spec, abs_spec.
  change (Prim2SF infinity) with (S754_infinity false).
  destruct (Prim2SF x) as [s | s | | s m e]; cbn; split;
    try discriminate; try (intros [s' Hs']; discriminate).
  - intros _. now exists s.
  - reflexivity.
Qed.

End Primitive.

(** ** The methods, case by case *)

Lemma getNextTerm_negative this k :
  k < 0 -> getNextTerm this k = (to_number (index (sequence this) 0), this).
Proof.
  intros Hk. unfold getNextTerm.
  destruct (Z.ltb_spec k 0) as [_ | Hge]; [reflexivity | lia].
Qed.

Lemma getNextTerm_cached this k :
  0 <= k < length (sequence this) ->
  getNextTerm this k = (capped this (selected this k), this).
Proof.
  intros [H0 Hlt]. unfold getNextTerm.
  destruct (Z.ltb_spec k 0) as [Hneg | _]; [lia |].
  destruct (Z.leb_spec (length (sequence this)) k) as [Hle | _]; [lia |].
  reflexivity.
Qed.

Lemma getNextTerm_beyond this k :
  length (sequence this) <= k ->
  getNextTerm this k =
    (capped (push this (nextFib this)) (selected (push this (nextFib this)) k),
     push this (nextFib this)).
Proof.
  intros Hle. unfold getNextTerm.
  assert (0 <= k) by (unfold length in Hle; lia).
  destruct (Z.ltb_spec k 0) as [Hneg | _]; [lia |].
  destruct (Z.leb_spec (length (sequence this)) k) as [_ | Hlt]; [| lia].
  reflexivity.
Qed.

(** The three cases cover every index. *)
Lemma getNextTerm_cases this k :
  snd (getNextTerm this k) = this \/
  (length (sequence this) <= k /\
   snd (getNextTerm this k) = push this (nextFib this)).
Proof.
  destruct (Z.lt_ge_cases k 0) as [Hneg | Hpos].
  - left. now rewrite getNextTerm_negative.
  - destruct (Z.lt_ge_cases k (length (sequence this))) as [Hlt | Hge].
    + left. now rewrite getNextTerm_cached.
    + right. split; [assumption |]. now rewrite getNextTerm_beyond.
Qed.

Lemma calculateNextBilling_state this k :
  snd (calculateNextBilling this k) = snd (getNextTerm this k).
Proof.
  unfold calculateNextBilling. now destruct (getNextTerm this k).
Qed.

Lemma calculateNextBilling_cycle this k :
  cycle (fst (calculateNextBilling this k)) = k + 1.
Proof.
  unfold calculateNextBilling. now destruct (getNextTerm this k).
Qed.

(** ** The loop of [generateBillingSchedule] *)

Lemma schedule_loop_acc todo : forall i acc this,
  schedule_loop todo i acc this =
    (acc ++ fst (schedule_loop todo i [] this),
     snd (schedule_loop todo i [] this)).
Proof.
  induction todo as [| todo IH]; intros i acc this; simpl.
  - now rewrite app_nil_r.
  - destruct (calculateNextBilling this i) as [info this'].
    rewrite (IH (i + 1) (acc ++ [info]) this').
    rewrite (IH (i + 1) [info] this'). simpl.
    now rewrite <- app_assoc.
Qed.

(** Peeling the last iteration off the loop. *)
Lemma schedule_loop_last todo : forall i acc this,
  schedule_loop (S todo) i acc this =
    let '(schedule, this') := schedule_loop todo i acc this in
    let '(info, this'') := calculateNextBilling this' (i + Z.of_nat todo) in
    (schedule ++ [info], this'').
Proof.
  induction todo as [| todo IH]; intros i acc this.
  - simpl. rewrite Z.add_0_r. now destruct (calculateNextBilling this i).
  - change (schedule_loop (S (S todo)) i acc this) with
      (let '(info, this') := calculateNextBilling this i in
       schedule_loop (S todo) (i + 1) (acc ++ [info]) this').
    change (schedule_loop (S todo) i acc this) with
      (let '(info, this') := calculateNextBilling this i in
       schedule_loop todo (i + 1) (acc ++ [info]) this').
    destruct (calculateNextBilling this i) as [info this'].
    rewrite IH.
    replace (i + 1 + Z.of_nat todo) with (i + Z.of_nat (S todo)) by lia.
    reflexivity.
Qed.

Lemma generateBillingSchedule_succ this (n : nat) :
  generateBillingSchedule this (Z.of_nat (S n)) =
    (fst (generateBillingSchedule this (Z.of_nat n)) ++
       [fst (calculateNextBilling
               (snd (generateBillingSchedule this (Z.of_nat n))) (Z.of_nat n))],
     snd (calculateNextBilling
            (snd (generateBillingSchedule this (Z.of_nat n))) (Z.of_nat n))).
Proof.
  unfold generateBillingSchedule. rewrite !Nat2Z.id.
  rewrite schedule_loop_last.
  destruct (schedule_loop n 0 [] this) as [schedule this']. simpl.
  now destruct (calculateNextBilling this' (Z.of_nat n)).
Qed.

Lemma generateBillingSchedule_length this (n : nat) :
  List.length (fst (generateBillingSchedule this (Z.of_nat n))) = n.
Proof.
  induction n as [| n IH]; [reflexivity |].
  rewrite generateBillingSchedule_succ. simpl.
  rewrite length_app, IH. simpl. lia.
Qed.

Lemma getBillingSummary_state this n :
  snd (getBillingSummary this n) = snd (generateBillingSchedule this n).
Proof.
  unfold getBillingSummary. now destruct (generateBillingSchedule this n).
Qed.

(** ** Frame: configuration and cache *)

Lemma same_config_refl a : same_config a a.
Proof. repeat split. Qed.

Lemma same_config_trans a b c :
  same_config a b -> same_config b c -> same_config a c.
Proof.
  unfold same_config. intros (H1 & H2 & H3 & H4) (H5 & H6 & H7 & H8).
  repeat split; congruence.
Qed.

Lemma extends_refl a : extends a a.
Proof. exists []. now rewrite app_nil_r. Qed.

Lemma extends_trans a b c : extends a b -> extends b c -> extends a c.
Proof.
  intros [x Hx] [y Hy]. exists (x ++ y). now rewrite Hy, Hx, app_assoc.
Qed.

Lemma extends_length a b :
  extends a b -> (List.length (sequence a) <= List.length (sequence b))%nat.
Proof. intros [x Hx]. rewrite Hx, length_app. lia. Qed.

Lemma getNextTerm_frame this k :
  same_config this (snd (getNextTerm this k)) /\
  extends this (snd (getNextTerm this k)).
Proof.
  destruct (getNextTerm_cases this k) as [-> | [_ ->]].
  - split; [apply same_config_refl | apply extends_refl].
  - split; [repeat split | now exists [nextFib this]].
Qed.

Lemma generateBillingSchedule_frame this (n : nat) :
  same_config this (snd (generateBillingSchedule this (Z.of_nat n))) /\
  extends this (snd (generateBillingSchedule this (Z.of_nat n))).
Proof.
  induction n as [| n [IHc IHe]].
  - split; [apply same_config_refl | apply extends_refl].
  - rewrite generateBillingSchedule_succ. cbn [snd].
    rewrite calculateNextBilling_state.
    destruct (getNextTerm_frame
                (snd (generateBillingSchedule this (Z.of_nat n))) (Z.of_nat n))
      as [Hc He].
    split; [eapply same_config_trans | eapply extends_trans]; eassumption.
Qed.

Lemma generateBillingSchedule_nonpositive this n :
  n <= 0 -> generateBillingSchedule this n = ([], this).
Proof.
  intros Hn. unfold generateBillingSchedule.
  now replace (Z.to_nat n) with 0%nat by lia.
Qed.

Lemma generateBillingSchedule_frame_Z this n :
  same_config this (snd (generateBillingSchedule this n)) /\
  extends this (snd (generateBillingSchedule this n)).
Proof.
  destruct (Z.le_gt_cases n 0) as [Hle | Hgt].
  - rewrite generateBillingSchedule_nonpositive by assumption.
    split; [apply same_config_refl | apply extends_refl].
  - rewrite <- (Z2Nat.id n) by lia. apply generateBillingSchedule_frame.
Qed.

(** ** The model on the cases of the test suite *)

Example constructor_defaults :
  constructor no_options =
    {| basePrice := 10%float; discountRate := 0.05%float; capTerm := false;
       maxTerm := 0%float; sequence := initial_sequence |}.
Proof. reflexivity. Qed.

Example getNextTerm_first_terms :
  map (fun k => fst (getNextTerm fresh k)) [-1; 0; 1; 2; 3; 4; 5]
    = [1; 1; 2; 3; 5; 8; 13]%float.
Proof. reflexivity. Qed.

Example getNextTerm_capped_at_6 :
  map (fun k => fst (getNextTerm (constructor (capping 6)) k)) [0; 4; 5]
    = [1; 6; 6]%float.
Proof. vm_compute. reflexivity. Qed.

Example calculateNextBilling_first_cycle :
  fst (calculateNextBilling (constructor (priced 20 0.05)) 0) =
    {| cycle := 1%Z; termMonths := 1; baseAmount := 20; discount := 0;
       finalAmount := 20; savingsAmount := 0;
       effectiveMonthlyRate := 20 |}%float.
Proof. vm_compute. reflexivity. Qed.

Example calculateNextBilling_fourth_cycle :
  fst (calculateNextBilling (constructor (priced 20 0.05)) 3) =
    {| cycle := 4%Z; termMonths := 5; baseAmount := 100; discount := 20;
       finalAmount := 80; savingsAmount := 20;
       effectiveMonthlyRate := 16 |}%float.
Proof. vm_compute. reflexivity. Qed.

(** [toFixed(2)] rounds the exact binary value, half up in magnitude:
    [1.005] and [2.675] lie just below the half, [8.345] just above, and
    [0.125] is an exact tie. *)
Example round2_values :
  map round2 [1.005; 2.675; 8.345; 0.125; -0.125; -0.001; 1e21; 27.5]%float
    = [1; 2.67; 8.35; 0.13; -0.13; -0; 1e21; 27.5]%float.
Proof. vm_compute. reflexivity. Qed.

(** The two ways of rounding [n / 100] agree where both apply. *)
Example hundredths_roundings_agree :
  map (fun n => (of_uint63 (Uint63.of_Z n) / 100)%float)
      [1; 583; 2750; 5650; 12345678901; 9007199254740991]
  = map (fun n => SF2Prim (SF64div (S754_finite false (Z.to_pos n) 0)
                                   (S754_finite false 100 0)))
      [1; 583; 2750; 5650; 12345678901; 9007199254740991].
Proof. vm_compute. reflexivity. Qed.

Example toFixed2_values :
  map toFixed2 [56.5; -2.5; 1e21; nan; neg_infinity]%float
    = [StrFixed false 5650; StrFixed true 250; StrShortest 1e21%float;
       StrNaN; StrInfinity true].
Proof. vm_compute. reflexivity. Qed.

(** ** Term resolution on a fresh engine *)

(** C1 (the code departs from the claim). Asked for index 12, a fresh engine
    pushes one element only: the cache ends with 12 entries, fewer than
    the 13 the claim requires, and the call returns 233, the element at
    index 11, where the schedule path reports 377 for the same index. *)
Theorem getNextTerm_fresh_12_single_push :
  fst (getNextTerm fresh 12) = 233%float /\
  sequence (snd (getNextTerm fresh 12)) = initial_sequence ++ [233%float] /\
  length (sequence (snd (getNextTerm fresh 12))) = 12 /\
  option_map termMonths (nth_error (fst (generateBillingSchedule fresh 13)) 12)
    = Some 377%float.
Proof. repeat split; vm_compute; reflexivity. Qed.

(** C2 (the code departs from the claim). With [basePrice = 10] and
    [discountRate = 0.05] the three-cycle summary has [totalAmount = 56],
    [totalSavings = 4], [savingsPercentage = 6.67] and
    [effectiveMonthlyRate = 9.33]: the third cycle is discounted by 10%
    to 27, not to 27.5. *)
Theorem getBillingSummary_3_value :
  fst (getBillingSummary (constructor (priced 10 0.05)) 3) =
    {| BillingSummary.cycles := 3%Z;
       BillingSummary.totalMonths := 6;
       BillingSummary.totalAmount := 56;
       BillingSummary.totalBaseAmount := 60;
       BillingSummary.totalSavings := 4;
       BillingSummary.savingsPercentage := 6.67;
       BillingSummary.effectiveMonthlyRate := 9.33 |}%float.
Proof. vm_compute. reflexivity. Qed.

(** C3 (the code departs from the claim). Two successive calls of
    [calculateNextBilling(12)] on a fresh engine return different
    records: the first reports a 233-month term, the second, after the
    push made by the first, a 377-month term. *)
Theorem calculateNextBilling_12_twice_differs :
  let first := calculateNextBilling fresh 12 in
  let second := calculateNextBilling (snd first) 12 in
  termMonths (fst first) = 233%float /\
  termMonths (fst second) = 377%float /\
  fst first <> fst second.
Proof.
  cbv zeta. split; [| split].
  - vm_compute. reflexivity.
  - vm_compute. reflexivity.
  - intros Heq.
    apply (f_equal (fun info => (termMonths info <? 300)%float)) in Heq.
    vm_compute in Heq. discriminate Heq.
Qed.

(** C5. One call of [getNextTerm] leaves the cache unchanged or appends
    exactly one element; on a freshly constructed engine every index from
    12 on selects 233, the last element of the 12-entry cache the call
    leaves; and the term for index 12 depends on the calls served before:
    233 at first, 377 after one earlier call. *)
Theorem getNextTerm_appends_at_most_one :
  (forall this k,
     sequence (snd (getNextTerm this k)) = sequence this \/
     sequence (snd (getNextTerm this k)) = sequence this ++ [nextFib this]) /\
  (forall options k, 12 <= k ->
     let this := constructor options in
     sequence (snd (getNextTerm this k)) = initial_sequence ++ [233%float] /\
     last (sequence (snd (getNextTerm this k))) nan = 233%float /\
     fst (getNextTerm this k) = capped this 233) /\
  (fst (getNextTerm fresh 12) = 233%float /\
   fst (getNextTerm (snd (getNextTerm fresh 12)) 12) = 377%float).
Proof.
  split; [| split].
  - intros this k.
    destruct (getNextTerm_cases this k) as [-> | [_ ->]]; [now left | now right].
  - intros options k Hk this.
    assert (Hlen : length (sequence this) <= k)
      by (change (length (sequence this)) with 11; lia).
    rewrite (getNextTerm_beyond this k Hlen). cbn [fst snd].
    split; [reflexivity |]. split; [reflexivity |].
    unfold selected.
    replace (Z.min k (length (sequence (push this (nextFib this))) - 1))
      with 11 by (change (length (sequence (push this (nextFib this)))) with 12; lia).
    reflexivity.
  - split; vm_compute; reflexivity.
Qed.

Lemma getNextTerm_appends_at_most_one_witness :
  let this := constructor no_options in
  fst (getNextTerm this 40) = capped this 233.
Proof.
  exact (proj2 (proj2 (proj1 (proj2 getNextTerm_appends_at_most_one)
                          no_options 40 ltac:(lia)))).
Defined.

(** ** Schedules *)

(** C8. [generateBillingSchedule(n)] returns [n] entries whose [cycle]
    fields are [1, ..., n] in order, the entry at position [i] (from 0)
    being what [calculateNextBilling(i)] returns on the engine left by
    the first [i] iterations. *)
Theorem generateBillingSchedule_entries this (n : nat) :
  let schedule := fst (generateBillingSchedule this (Z.of_nat n)) in
  List.length schedule = n /\
  map cycle schedule = map Z.of_nat (seq 1 n) /\
  forall i, (i < n)%nat ->
    nth_error schedule i =
      Some (fst (calculateNextBilling
                   (snd (generateBillingSchedule this (Z.of_nat i)))
                   (Z.of_nat i))).
Proof.
  cbv zeta. split; [apply generateBillingSchedule_length |]. split.
  - induction n as [| n IH]; [reflexivity |].
    rewrite generateBillingSchedule_succ. cbn [fst].
    rewrite map_app, IH, seq_S, map_app. cbn [map].
    rewrite calculateNextBilling_cycle.
    repeat f_equal. lia.
  - induction n as [| n IH]; intros i Hi; [lia |].
    rewrite generateBillingSchedule_succ. cbn [fst].
    destruct (Nat.eq_dec i n) as [-> | Hne].
    + rewrite nth_error_app2 by (rewrite generateBillingSchedule_length; lia).
      rewrite generateBillingSchedule_length, Nat.sub_diag. reflexivity.
    + rewrite nth_error_app1 by (rewrite generateBillingSchedule_length; lia).
      apply IH. lia.
Qed.

Lemma generateBillingSchedule_entries_witness :
  nth_error (fst (generateBillingSchedule fresh (Z.of_nat 3))) 1 =
    Some (fst (calculateNextBilling
                 (snd (generateBillingSchedule fresh (Z.of_nat 1)))
                 (Z.of_nat 1))).
Proof.
  exact (proj2 (proj2 (generateBillingSchedule_entries fresh 3)) 1%nat
           ltac:(lia)).
Defined.

(** ** Rounding order *)

(** The fields of the record, from the engine's configuration and the
    term the record reports. *)
Lemma calculateNextBilling_fields this k :
  let info := fst (calculateNextBilling this k) in
  let base := (basePrice this * termMonths info)%float in
  let d := Math_min (discountRate this * (termMonths info - 1))%float
             0.5%float in
  let discounted := (base * (1 - d))%float in
  baseAmount info = round2 base /\
  discount info = round2 (d * 100)%float /\
  finalAmount info = round2 discounted /\
  savingsAmount info = round2 (base - discounted)%float /\
  effectiveMonthlyRate info = round2 (discounted / termMonths info)%float.
Proof.
  cbv zeta.
  destruct (getNextTerm_frame this k) as [(Hb & Hd & _) _].
  unfold calculateNextBilling.
  destruct (getNextTerm this k) as [term this']. cbn [fst snd] in *.
  rewrite Hb, Hd. repeat split.
Qed.

(** C9. Every money field of the record is one rounding of an unrounded
    intermediate: with [base = basePrice * termMonths], the discount
    fraction [d] and [discounted = base * (1 - d)], the record holds
    [round2 base], [round2 (d * 100)], [round2 discounted],
    [round2 (base - discounted)] and [round2 (discounted / termMonths)].
    The savings field is not derived from the rounded fields: for
    [basePrice = 0.333] and cycle 1 it is 0.03 while the rounded fields
    differ by 0.04. *)
Theorem calculateNextBilling_rounds_once :
  (forall this k,
     let info := fst (calculateNextBilling this k) in
     let base := (basePrice this * termMonths info)%float in
     let d := Math_min (discountRate this * (termMonths info - 1))%float
                0.5%float in
     let discounted := (base * (1 - d))%float in
     baseAmount info = round2 base /\
     discount info = round2 (d * 100)%float /\
     finalAmount info = round2 discounted /\
     savingsAmount info = round2 (base - discounted)%float /\
     effectiveMonthlyRate info = round2 (discounted / termMonths info)%float) /\
  (let info := fst (calculateNextBilling (constructor (priced 0.333 0.05)) 1) in
   savingsAmount info = 0.03%float /\
   round2 (baseAmount info - finalAmount info)%float = 0.04%float).
Proof.
  split.
  - exact calculateNextBilling_fields.
  - cbv zeta. split; vm_compute; reflexivity.
Qed.

(** ** Frame *)

(** C10. Each of the four methods leaves an engine with the same
    [basePrice], [discountRate], [capTerm] and [maxTerm], whose cache is
    the earlier cache with elements appended, so never shorter. *)
Theorem methods_keep_config_and_append this :
  let framed this' :=
    same_config this this' /\ extends this this' /\
    (List.length (sequence this) <= List.length (sequence this'))%nat in
  (forall k, framed (snd (getNextTerm this k))) /\
  (forall k, framed (snd (calculateNextBilling this k))) /\
  (forall n, framed (snd (generateBillingSchedule this n))) /\
  (forall n, framed (snd (getBillingSummary this n))).
Proof.
  cbv zeta.
  assert (Hterm : forall k,
    same_config this (snd (getNextTerm this k)) /\
    extends this (snd (getNextTerm this k)) /\
    (List.length (sequence this)
       <= List.length (sequence (snd (getNextTerm this k))))%nat).
  { intros k. destruct (getNextTerm_frame this k) as [Hc He].
    auto using extends_length. }
  assert (Hsched : forall n,
    same_config this (snd (generateBillingSchedule this n)) /\
    extends this (snd (generateBillingSchedule this n)) /\
    (List.length (sequence this)
       <= List.length (sequence (snd (generateBillingSchedule this n))))%nat).
  { intros n. destruct (generateBillingSchedule_frame_Z this n) as [Hc He].
    auto using extends_length. }
  repeat split; intros;
    rewrite ?calculateNextBilling_state, ?getBillingSummary_state;
    first [apply Hterm | apply Hsched].
Qed.

(** ** Rounding to two decimals *)

Section Round2.

Local Open Scope float_scope.

Lemma Math_min_cases a b :
  ((is_nan a || is_nan b = true) /\ Math_min a b = nan) \/
  (is_nan a = false /\ is_nan b = false /\
   (Math_min a b = a \/ Math_min a b = b) /\
   rank (Math_min a b) = Z.min (rank a) (rank b)).
Proof.
  unfold Math_min.
  destruct (is_nan a) eqn:Na; [left; auto |].
  destruct (is_nan b) eqn:Nb; [left; auto |].
  right. cbn [orb]. rewrite !ltb_rank by assumption.
  destruct (Z.ltb_spec (rank a) (rank b)); [repeat split; auto; lia |].
  destruct (Z.ltb_spec (rank b) (rank a)); [repeat split; auto; lia |].
  destruct (get_sign a); repeat split; auto; lia.
Qed.

Lemma rank_0 : rank 0 = 0%Z.
Proof. reflexivity. Qed.

Lemma rank_half : (2 * rank 0.5 = 2 ^ bias)%Z.
Proof. vm_compute. reflexivity. Qed.

Lemma rank_50 : rank 50 = (50 * 2 ^ bias)%Z.
Proof. vm_compute. reflexivity. Qed.

Lemma rank_100 : rank 100 = (100 * 2 ^ bias)%Z.
Proof. vm_compute. reflexivity. Qed.

Lemma rank_bounds_50_100 :
  (0 < rank 50 < top)%Z /\ (0 < rank 100 < top)%Z /\
  (rank 50 < rank 1e21)%Z /\ (rank 0.5 < top)%Z.
Proof. repeat split; apply Z.ltb_lt; vm_compute; reflexivity. Qed.

(** A fraction of at most one half is a percentage of at most 50. *)
Lemma percent_upper m :
  is_nan m = false -> (rank m <= rank 0.5)%Z ->
  is_nan (m * 100) = false /\ (rank (m * 100) <= rank 50)%Z.
Proof.
  intros Nm Hm.
  destruct rank_bounds_50_100 as (H50 & H100 & _ & Hhalf).
  apply mul_upper; try assumption; [lia |].
  rewrite rank_100, rank_50. pose proof rank_half.
  assert (0 < 2 ^ bias)%Z by (apply pow2_gt0; unfold bias; lia).
  nia.
Qed.

End Round2.

Section Signs.

Lemma binary_round_aux_has_sign s m e l :
  0 <= m -> has_sign s (binary_round_aux prec emax s m e l).
Proof. apply binary_round_aux_sign. Qed.

Lemma binary_round_has_sign s m e :
  has_sign s (binary_round prec emax s m e).
Proof.
  unfold binary_round. destruct (shl_align m e _) as [mz ez].
  apply binary_round_aux_has_sign. lia.
Qed.

Lemma binary_normalize_has_sign m e :
  0 <= m -> has_sign false (binary_normalize prec emax m e false).
Proof.
  intros Hm. destruct m as [| p | p]; cbn [binary_normalize];
    [reflexivity | apply binary_round_has_sign | lia].
Qed.

Lemma SFldexp_has_sign s x e :
  has_sign s x -> has_sign s (SFldexp prec emax x e).
Proof.
  destruct x as [s' | s' | | s' m ex]; cbn [SFldexp has_sign]; try tauto.
  intros ->. apply binary_round_has_sign.
Qed.

Lemma SFopp_has_sign s x : has_sign s x -> has_sign (negb s) (SFopp x).
Proof.
  destruct x as [s' | s' | | s' m ex]; cbn [SFopp has_sign];
    try tauto; now intros ->.
Qed.

(** Converting a specification value to a primitive float keeps its
    sign, whether or not the value was canonical. *)
Lemma SF2Prim_has_sign s x :
  has_sign s x -> has_sign s (Prim2SF (SF2Prim x)).
Proof.
  destruct x as [[] | [] | | s' m e]; cbn [has_sign]; try tauto;
    try (intros <-; reflexivity).
  intros ->. unfold SF2Prim.
  set (f := FloatOps.Z.ldexp (of_uint63 (Uint63.of_Z (Zpos m))) e).
  assert (Hf : has_sign false (Prim2SF f)).
  { unfold f. rewrite Z_ldexp_spec. apply SFldexp_has_sign.
    rewrite of_uint63_spec. apply binary_normalize_has_sign.
    apply Uint63.to_Z_bounded. }
  destruct s.
  - rewrite opp_spec. now apply (SFopp_has_sign false).
  - assumption.
Qed.

Lemma has_sign_true_key x : has_sign true x -> x <> S754_nan /\ key x <= 0.
Proof.
  assert (HT : 0 < top) by (apply pow2_gt0; lia).
  destruct x as [s | s | | s m e]; cbn [has_sign key]; try tauto;
    intros ->; (split; [discriminate |]); cbn [cond_Zopp]; try lia.
  pose proof (scaled_nonneg m e). lia.
Qed.

Lemma SFdiv_has_sign s x q eq :
  has_sign s x -> has_sign s (SF64div x (S754_finite false q eq)).
Proof.
  destruct x as [s' | s' | | s' p ep]; cbn [has_sign]; try tauto; intros ->;
    unfold SF64div, SFdiv; try (now destruct s).
  unfold SFdiv_core_binary.
  set (m' := match _ - _ - _ with Zpos _ => _ | Z0 => _ | Zneg _ => _ end).
  assert (Hm' : 0 <= m').
  { unfold m'. destruct (_ - _ - _); [lia | | lia].
    rewrite Z.shiftl_mul_pow2 by lia.
    apply Z.mul_nonneg_nonneg; [lia | apply Z.pow_nonneg; lia]. }
  pose proof (Z.div_pos m' (Zpos q) Hm' ltac:(lia)) as Hq.
  unfold Z.div in Hq.
  destruct (Z.div_eucl m' (Zpos q)) as [quo r]. cbn [fst] in Hq.
  replace (xorb s false) with s by now destruct s.
  now apply binary_round_aux_has_sign.
Qed.

(** The magnitude parsed from the digits of a [toFixed(2)] string is not
    negative. *)
Lemma hundredths_magnitude_has_sign n :
  has_sign false (Prim2SF (hundredths_to_number false n)).
Proof.
  unfold hundredths_to_number. destruct (n <? 9007199254740992).
  - rewrite div_spec.
    change (Prim2SF 100) with (S754_finite false 7036874417766400 (-46)).
    apply SFdiv_has_sign. rewrite of_uint63_spec.
    apply binary_normalize_has_sign, Uint63.to_Z_bounded.
  - apply SF2Prim_has_sign, SFdiv_has_sign. reflexivity.
Qed.

End Signs.

Section Round2Bounds.

Local Open Scope float_scope.

Lemma hundredths_checked_spec :
  hundredths_checked = true ->
  forall n, (0 <= n <= 5000)%Z ->
  (50 <? hundredths_to_number false n) = false.
Proof.
  unfold hundredths_checked. intros Hall n Hn.
  rewrite forallb_forall in Hall.
  specialize (Hall (Z.to_nat n)). rewrite Z2Nat.id in Hall by lia.
  apply negb_true_iff, Hall, in_seq. lia.
Qed.

Lemma hundredths_checked_true : hundredths_checked = true.
Proof. vm_compute. reflexivity. Qed.

Lemma hundredths_small n :
  (0 <= n <= 5000)%Z -> (50 <? hundredths_to_number false n) = false.
Proof. exact (hundredths_checked_spec hundredths_checked_true n). Qed.

Lemma hundredths_negative n :
  is_nan (hundredths_to_number true n) = false /\
  (rank (hundredths_to_number true n) <= 0)%Z.
Proof.
  rewrite is_nan_false. apply has_sign_true_key.
  change (hundredths_to_number true n)
    with (- hundredths_to_number false n).
  rewrite opp_spec.
  apply (SFopp_has_sign false), hundredths_magnitude_has_sign.
Qed.

Lemma nearest_hundredths_upper m e :
  bounded prec emax m e = true ->
  (scaled (Zpos m) e <= 50 * 2 ^ bias)%Z ->
  (0 <= (if 0 <=? e then 100 * Zpos m * 2 ^ e
         else (200 * Zpos m + 2 ^ (- e)) / 2 ^ (1 - e)) <= 5000)%Z.
Proof.
  intros Hb Hle. pose proof (bounded_bias m e Hb) as He.
  assert (HW : (0 < 2 ^ (e + bias))%Z) by now apply pow2_gt0.
  unfold scaled in Hle.
  destruct (Z.leb_spec 0 e) as [Hpos | Hneg].
  - assert (HP : (0 < 2 ^ e)%Z) by now apply pow2_gt0.
    rewrite Z.pow_add_r in Hle by (unfold bias; lia).
    assert (HB : (0 < 2 ^ bias)%Z) by (apply pow2_gt0; unfold bias; lia).
    assert (Zpos m * 2 ^ e <= 50)%Z by nia.
    nia.
  - assert (HK : (0 < 2 ^ (- e))%Z) by (apply pow2_gt0; lia).
    assert (Hsplit : (2 ^ bias = 2 ^ (- e) * 2 ^ (e + bias))%Z).
    { rewrite <- Z.pow_add_r by lia. f_equal. lia. }
    rewrite Hsplit in Hle.
    assert (Hm : (Zpos m <= 50 * 2 ^ (- e))%Z) by nia.
    assert (Hpow : (2 ^ (1 - e) = 2 * 2 ^ (- e))%Z).
    { replace (1 - e)%Z with (Z.succ (- e)) by lia. apply Z.pow_succ_r. lia. }
    rewrite Hpow. split.
    + apply Z.div_pos; lia.
    + assert ((200 * Zpos m + 2 ^ (- e)) / (2 * 2 ^ (- e)) < 5001)%Z; [| lia].
      apply Z.div_lt_upper_bound; lia.
Qed.

(** Rounding to two decimals never carries a number above 50. *)
Lemma round2_upper_50 y :
  is_nan y = false -> (rank y <= rank 50)%Z -> (50 <? round2 y) = false.
Proof.
  intros Ny Hy.
  destruct rank_bounds_50_100 as (H50 & _ & H21 & _).
  assert (N50 : is_nan 50 = false) by reflexivity.
  pose proof (Prim2SF_valid y) as V.
  destruct (Prim2SF y) as [s | s | | s m e] eqn:E.
  - apply SF_of_float in E. subst y. now destruct s.
  - destruct s.
    + apply SF_of_float in E. now subst y.
    + assert (Ry : rank y = top) by (unfold rank; now rewrite E). lia.
  - apply is_nan_false in Ny. contradiction.
  - cbn [valid_binary] in V.
    pose proof (bounded_below_top m e V) as [Hpos _].
    assert (Ry : rank y = cond_Zopp s (scaled (Zpos m) e))
      by (unfold rank; now rewrite E).
    unfold round2, toFixed2. rewrite Ny.
    destruct (is_infinity y) eqn:Hinf.
    { apply is_infinity_spec in Hinf as [s' Hs']. congruence. }
    rewrite (ltb_rank y 0 Ny eq_refl), rank_0.
    destruct s; cbn [cond_Zopp] in Ry.
    + destruct (Z.ltb_spec (rank y) 0) as [_ | ?]; [| lia].
      destruct (1e21 <=? - y); cbn [parseFloat].
      * rewrite ltb_rank by assumption.
        apply Z.ltb_ge. lia.
      * destruct (hundredths_negative (nearest_hundredths (- y))) as [Nh Rh].
        rewrite ltb_rank by assumption. apply Z.ltb_ge. lia.
    + destruct (Z.ltb_spec (rank y) 0) as [? | _]; [lia |].
      rewrite leb_rank by (assumption || reflexivity).
      destruct (Z.leb_spec (rank 1e21) (rank y)) as [? | _]; [lia |].
      cbn [parseFloat]. apply hundredths_small.
      unfold nearest_hundredths. rewrite E.
      apply nearest_hundredths_upper; [assumption |].
      rewrite <- rank_50. lia.
Qed.

(** The percentage made from [Math.min(x, 0.5)] is never above 50. *)
Lemma percent_of_min_upper x :
  (50 <? round2 (Math_min x 0.5 * 100)) = false.
Proof.
  destruct (Math_min_cases x 0.5) as [[_ ->] | (Nx & _ & Hsel & Hmin)].
  - reflexivity.
  - assert (Nm : is_nan (Math_min x 0.5) = false)
      by (destruct Hsel as [-> | ->]; [assumption | reflexivity]).
    destruct (percent_upper (Math_min x 0.5) Nm) as [Np Rp]; [lia |].
    now apply round2_upper_50.
Qed.

End Round2Bounds.

Section Degenerate.

Local Open Scope float_scope.

Lemma is_finite_spec x :
  is_finite x = true ->
  exists s, Prim2SF x = S754_zero s \/ exists m e, Prim2SF x = S754_finite s m e.
Proof.
  unfold is_finite. rewrite negb_true_iff, orb_false_iff. intros [Nn Ni].
  apply is_nan_false in Nn.
  destruct (Prim2SF x) as [s | s | | s m e] eqn:E.
  - exists s. now left.
  - assert (is_infinity x = true) by (apply is_infinity_spec; now exists s).
    congruence.
  - contradiction.
  - exists s. right. now exists m, e.
Qed.

Lemma finite_times_zero r :
  is_finite r = true -> r * 0 = 0 \/ r * 0 = -0.
Proof.
  intros Hr. pose proof (mul_spec r 0) as Hm.
  change (Prim2SF 0) with (S754_zero false) in Hm.
  destruct (is_finite_spec r Hr) as [s [E | (m & e & E)]]; rewrite E in Hm;
    cbn in Hm; apply SF_of_float in Hm; rewrite Hm; destruct s; auto.
Qed.

(** A quotient by zero is [NaN] or infinite, and stays so through the
    scaling to a percentage and the rounding. *)
Lemma percent_of_division_by_zero x z :
  is_zero z = true -> is_finite (round2 (x / z * 100)) = false.
Proof.
  intros Hz. destruct (is_zero_spec z Hz) as [s Ez].
  pose proof (div_spec x z) as Hd. rewrite Ez in Hd.
  destruct (Prim2SF x) as [sx | sx | | sx mx ex]; cbn in Hd;
    apply SF_of_float in Hd; rewrite Hd;
    try reflexivity; destruct sx, s; reflexivity.
Qed.

End Degenerate.

(** ** Discount *)

(** C6. The [discount] field never exceeds 50: it is the rounding of
    [100 * Math.min(discountRate * (termMonths - 1), 0.5)], and the
    comparison [50 < discount] is false for every engine and cycle.  For
    a finite [discountRate], a one-month term gives a discount of
    exactly 0. *)
Theorem discount_capped_at_50 this k :
  let info := fst (calculateNextBilling this k) in
  (50 <? discount info)%float = false /\
  discount info =
    round2 (Math_min (discountRate this * (termMonths info - 1)) 0.5 * 100)%float /\
  (termMonths info = 1%float -> is_finite (discountRate this) = true ->
   discount info = 0%float).
Proof.
  cbv zeta.
  assert (Hd : discount (fst (calculateNextBilling this k)) =
    round2 (Math_min (discountRate this
                      * (termMonths (fst (calculateNextBilling this k)) - 1)) 0.5
            * 100)%float)
    by apply (calculateNextBilling_fields this k).
  split; [| split].
  - rewrite Hd. apply percent_of_min_upper.
  - exact Hd.
  - intros Hterm Hfin. rewrite Hd, Hterm.
    change (1 - 1)%float with 0%float.
    destruct (finite_times_zero _ Hfin) as [-> | ->]; reflexivity.
Qed.

Lemma discount_capped_at_50_witness :
  discount (fst (calculateNextBilling fresh 0)) = 0%float.
Proof.
  exact (proj2 (proj2 (discount_capped_at_50 fresh 0)) eq_refl eq_refl).
Defined.

(** ** The sequence cache *)

Section Cache.

Lemma index_nth l i : 0 <= i -> index l i = nth_error l (Z.to_nat i).
Proof.
  intros Hi. unfold index.
  destruct (Z.ltb_spec i 0); [lia | reflexivity].
Qed.

Lemma ascending_tail x l : ascending (x :: l) -> ascending l.
Proof. intros H. inversion H; subst; [constructor | assumption]. Qed.

Lemma ascending_head x l :
  ascending (x :: l) -> forall y, In y l -> rank x <= rank y.
Proof.
  revert x. induction l as [| z l IH]; intros x H y Hy; [contradiction |].
  inversion H as [| | x' z' l' Hxz Hrest]; subst.
  destruct Hy as [-> | Hy]; [assumption |].
  specialize (IH z Hrest y Hy). lia.
Qed.

Lemma ascending_nth l :
  ascending l -> forall i j x y, (i <= j)%nat ->
  nth_error l i = Some x -> nth_error l j = Some y -> rank x <= rank y.
Proof.
  induction l as [| z l IH]; intros H i j x y Hij Hi Hj.
  - destruct i; discriminate.
  - destruct i as [| i], j as [| j]; cbn [nth_error] in *; try lia.
    + injection Hi as <-. injection Hj as <-. lia.
    + injection Hi as <-. apply (ascending_head z l H).
      eapply nth_error_In; eassumption.
    + apply (IH (ascending_tail z l H) i j); [lia | assumption | assumption].
Qed.

Lemma ascending_snoc l z :
  ascending l -> (forall y, In y l -> rank y <= rank z) ->
  ascending (l ++ [z]).
Proof.
  induction l as [| x l IH]; intros H Hz; [constructor |].
  destruct l as [| y l].
  - cbn. constructor; [apply Hz; now left | constructor].
  - inversion H as [| | x' y' l' Hxy Hrest]; subst.
    change ((x :: y :: l) ++ [z]) with (x :: (y :: l) ++ [z]).
    change ((y :: l) ++ [z]) with (y :: l ++ [z]) in *.
    constructor; [assumption |].
    apply IH; [assumption |]. intros w Hw. apply Hz. now right.
Qed.

Lemma cache_ok_initial : cache_ok initial_sequence.
Proof.
  split; [cbn; lia |]. split.
  - repeat constructor; apply Z.ltb_lt; vm_compute; reflexivity.
  - repeat constructor; apply Z.leb_le; vm_compute; reflexivity.
Qed.

(** The two reads of [nextFib] are in range, and the sum is at least
    every element of the cache. *)
Lemma nextFib_spec this :
  cache_ok (sequence this) ->
  0 < rank (nextFib this) /\
  forall y, In y (sequence this) -> rank y <= rank (nextFib this).
Proof.
  intros (Hlen & Hpos & Hasc). unfold nextFib, length.
  set (l := sequence this) in *.
  rewrite !index_nth by lia.
  destruct (nth_error l (Z.to_nat (Z.of_nat (List.length l) - 1))) as [a |] eqn:Ea;
    [| apply nth_error_None in Ea; lia].
  destruct (nth_error l (Z.to_nat (Z.of_nat (List.length l) - 2))) as [b |] eqn:Eb;
    [| apply nth_error_None in Eb; lia].
  cbn [to_number].
  rewrite Forall_forall in Hpos.
  assert (Ha : 0 < rank a) by (eapply Hpos, nth_error_In; eassumption).
  assert (Hb : 0 < rank b) by (eapply Hpos, nth_error_In; eassumption).
  destruct (add_lower a b Ha Hb) as (_ & Hsa & _).
  split; [lia |]. intros y Hy.
  apply In_nth_error in Hy as [i Hi].
  assert (i < List.length l)%nat by (apply nth_error_Some; congruence).
  assert (rank y <= rank a); [| lia].
  apply (ascending_nth l Hasc i
           (Z.to_nat (Z.of_nat (List.length l) - 1)) y a);
    [lia | assumption | assumption].
Qed.

Lemma cache_ok_push this :
  cache_ok (sequence this) ->
  cache_ok (sequence (push this (nextFib this))).
Proof.
  intros Hok. destruct (nextFib_spec this Hok) as [Hpos Hmax].
  destruct Hok as (Hlen & Hall & Hasc). cbn [push sequence].
  split; [rewrite length_app; lia |]. split.
  - apply Forall_app. split; [assumption | now repeat constructor].
  - now apply ascending_snoc.
Qed.

Lemma cache_ok_getNextTerm this k :
  cache_ok (sequence this) -> cache_ok (sequence (snd (getNextTerm this k))).
Proof.
  intros Hok. destruct (getNextTerm_cases this k) as [-> | [_ ->]];
    [assumption | now apply cache_ok_push].
Qed.

Lemma cache_ok_schedule this (n : nat) :
  cache_ok (sequence this) ->
  cache_ok (sequence (snd (generateBillingSchedule this (Z.of_nat n)))).
Proof.
  intros Hok. induction n as [| n IH]; [assumption |].
  rewrite generateBillingSchedule_succ. cbn [snd].
  rewrite calculateNextBilling_state. now apply cache_ok_getNextTerm.
Qed.

Lemma cache_ok_schedule_Z this n :
  cache_ok (sequence this) ->
  cache_ok (sequence (snd (generateBillingSchedule this n))).
Proof.
  intros Hok. destruct (Z.le_gt_cases n 0) as [Hle | Hgt].
  - now rewrite generateBillingSchedule_nonpositive.
  - rewrite <- (Z2Nat.id n) by lia. now apply cache_ok_schedule.
Qed.

(** Every engine a program can hold has a well-formed cache. *)
Lemma reachable_cache_ok this : reachable this -> cache_ok (sequence this).
Proof.
  induction 1 as [options | this k _ IH | this k _ IH | this n _ IH | this n _ IH].
  - apply cache_ok_initial.
  - now apply cache_ok_getNextTerm.
  - rewrite calculateNextBilling_state. now apply cache_ok_getNextTerm.
  - now apply cache_ok_schedule_Z.
  - rewrite getBillingSummary_state. now apply cache_ok_schedule_Z.
Qed.

End Cache.

(** ** Monotonicity of the term *)

Section Monotone.

Lemma getNextTerm_uncapped this k :
  fst (getNextTerm this k) =
    if k <? 0 then uncapped this k else capped this (uncapped this k).
Proof.
  unfold uncapped. destruct (Z.ltb_spec k 0) as [Hneg | Hpos].
  - now rewrite getNextTerm_negative.
  - destruct (Z.lt_ge_cases k (length (sequence this))) as [Hlt | Hge].
    + now rewrite getNextTerm_cached.
    + now rewrite getNextTerm_beyond.
Qed.

(** Which element a call selects. *)
Lemma uncapped_cases this k :
  cache_ok (sequence this) ->
  (k < 0 /\ nth_error (sequence this) 0 = Some (uncapped this k)) \/
  (0 <= k < length (sequence this) /\
   nth_error (sequence this) (Z.to_nat k) = Some (uncapped this k)) \/
  (length (sequence this) <= k /\ uncapped this k = nextFib this).
Proof.
  intros (Hlen & _ & _). unfold uncapped, length in *.
  destruct (Z.ltb_spec k 0) as [Hneg | Hpos].
  - left. split; [assumption |]. rewrite index_nth by lia.
    change (Z.to_nat 0) with 0%nat.
    destruct (sequence this); [cbn in Hlen; lia | reflexivity].
  - right.
    destruct (Z.lt_ge_cases k (Z.of_nat (List.length (sequence this))))
      as [Hlt | Hge].
    + left. split; [lia |].
      rewrite getNextTerm_cached by (unfold length; lia). cbn [snd].
      unfold selected, length. rewrite Z.min_l by lia.
      rewrite index_nth by lia.
      destruct (nth_error (sequence this) (Z.to_nat k)) eqn:E; [reflexivity |].
      apply nth_error_None in E. lia.
    + right. split; [assumption |].
      rewrite getNextTerm_beyond by (unfold length; lia). cbn [snd].
      unfold selected, length. cbn [push sequence].
      rewrite length_app. cbn [List.length].
      rewrite Z.min_r by lia. rewrite index_nth by lia.
      replace (Z.to_nat (Z.of_nat (List.length (sequence this) + 1) - 1))
        with (List.length (sequence this)) by lia.
      rewrite nth_error_app2 by lia. now rewrite Nat.sub_diag.
Qed.

Lemma uncapped_positive this k :
  cache_ok (sequence this) -> 0 < rank (uncapped this k).
Proof.
  intros Hok. pose proof (nextFib_spec this Hok) as [Hnf _].
  destruct (uncapped_cases this k Hok) as [[_ E] | [[_ E] | [_ ->]]];
    try assumption;
    destruct Hok as (_ & Hpos & _); rewrite Forall_forall in Hpos;
    eapply Hpos, nth_error_In; eassumption.
Qed.

(** From one engine state, a larger index never selects a smaller
    term. *)
Lemma uncapped_monotone this i j :
  cache_ok (sequence this) -> i <= j ->
  rank (uncapped this i) <= rank (uncapped this j).
Proof.
  intros Hok Hij. pose proof (nextFib_spec this Hok) as [_ Hmax].
  pose proof Hok as (_ & _ & Hasc).
  assert (Hlen : 0 <= length (sequence this)) by (unfold length; lia).
  destruct (uncapped_cases this i Hok) as [[Hi Ei] | [[Hi Ei] | [Hi Ei]]];
  destruct (uncapped_cases this j Hok) as [[Hj Ej] | [[Hj Ej] | [Hj Ej]]];
    try lia.
  - rewrite Ei in Ej. injection Ej as <-. lia.
  - apply (ascending_nth _ Hasc 0%nat (Z.to_nat j)); [lia | assumption ..].
  - rewrite Ej. eapply Hmax, nth_error_In; eassumption.
  - apply (ascending_nth _ Hasc (Z.to_nat i) (Z.to_nat j)); [lia | assumption ..].
  - rewrite Ej. eapply Hmax, nth_error_In; eassumption.
  - rewrite Ei, Ej. lia.
Qed.

(** The same across two successive calls: the second call, made on the
    engine the first one left, never selects a smaller term. *)
Lemma uncapped_monotone_next this i j :
  cache_ok (sequence this) -> i <= j ->
  rank (uncapped this i) <= rank (uncapped (snd (getNextTerm this i)) j).
Proof.
  intros Hok Hij.
  destruct (getNextTerm_cases this i) as [-> | [Hge Hpush]];
    [now apply uncapped_monotone |].
  rewrite Hpush.
  assert (Hok' : cache_ok (sequence (push this (nextFib this))))
    by now apply cache_ok_push.
  destruct (uncapped_cases this i Hok) as [[Hi _] | [[Hi _] | [_ Ei]]];
    [unfold length in *; lia | lia |].
  rewrite Ei.
  pose proof (nextFib_spec _ Hok') as [_ Hmax'].
  assert (Hin : In (nextFib this) (sequence (push this (nextFib this))))
    by (cbn [push sequence]; apply in_or_app; right; now left).
  destruct (uncapped_cases _ j Hok') as [[Hj _] | [[Hj Ej] | [_ Ej]]].
  - unfold length in *. lia.
  - unfold length in *. cbn [push sequence] in Hj, Ej.
    rewrite length_app in Hj. cbn [List.length] in Hj.
    replace (Z.to_nat j) with (List.length (sequence this)) in Ej by lia.
    rewrite nth_error_app2, Nat.sub_diag in Ej by lia.
    injection Ej as <-. lia.
  - rewrite Ej. now apply Hmax'.
Qed.

Lemma ltb_true_not_nan x y :
  (x <? y)%float = true -> is_nan x = false /\ is_nan y = false.
Proof.
  rewrite ltb_spec. unfold SFltb. rewrite <- !not_true_iff_false, !is_nan_spec.
  destruct (Prim2SF x), (Prim2SF y); cbn; intros H; split;
    discriminate.
Qed.

Lemma get_sign_positive x : 0 < rank x -> get_sign x = false.
Proof.
  intros Hx. pose proof (rank_positive_not_nan x Hx) as Nx.
  unfold get_sign, is_zero. rewrite eqb_spec. unfold SFeqb.
  rewrite (compare_rank x zero Nx eq_refl).
  change (rank zero) with 0.
  destruct (Z.compare_spec (rank x) 0); try lia.
  rewrite (ltb_rank x zero Nx eq_refl). change (rank zero) with 0.
  apply Z.ltb_ge. lia.
Qed.

(** A cap that the selected term has reached is what [Math.min]
    returns. *)
Lemma Math_min_cap u cap :
  0 < rank u -> (0 <? cap)%float = true -> rank cap <= rank u ->
  Math_min u cap = cap.
Proof.
  intros Hu Hcap Hle. pose proof (rank_positive_not_nan u Hu) as Nu.
  destruct (ltb_true_not_nan _ _ Hcap) as [_ Nc].
  unfold Math_min. rewrite Nu, Nc. cbn [orb].
  rewrite !ltb_rank by assumption.
  destruct (Z.ltb_spec (rank u) (rank cap)); [lia |].
  destruct (Z.ltb_spec (rank cap) (rank u)); [reflexivity |].
  now rewrite get_sign_positive.
Qed.

End Monotone.

(** C7 (the code departs from the claim). With the cap off, the term
    returned for a smaller index can exceed the term returned for a
    larger one: on a fresh engine [getNextTerm(20)] returns 233, not the
    term 17711 of index 20, and the call [getNextTerm(12)] that follows
    returns 377.  A schedule reports 377 for the index 12 and 17711 for
    the index 20. *)
Theorem getNextTerm_order_of_calls :
  let first := getNextTerm fresh 20 in
  let second := getNextTerm (snd first) 12 in
  let schedule := fst (generateBillingSchedule fresh 21) in
  capTerm fresh = false /\
  fst first = 233%float /\
  fst second = 377%float /\
  (fst second <=? fst first)%float = false /\
  option_map termMonths (nth_error schedule 12) = Some 377%float /\
  option_map termMonths (nth_error schedule 20) = Some 17711%float.
Proof. cbv zeta. repeat split; vm_compute; reflexivity. Qed.

(** ** Degenerate configuration *)

(** C4, as the claim states it, fails: an engine constructed with
    [basePrice = 0] reports [totalBaseAmount = 60] over three cycles and
    a finite [savingsPercentage]. *)
Lemma zero_basePrice_is_replaced :
  let summary := fst (getBillingSummary (constructor (priced 0 0.05)) 3) in
  BillingSummary.totalBaseAmount summary = 60%float /\
  BillingSummary.totalBaseAmount summary <> 0%float /\
  is_finite (BillingSummary.savingsPercentage summary) = true.
Proof.
  cbv zeta. split; [| split].
  - vm_compute. reflexivity.
  - intros H. apply (f_equal is_zero) in H. vm_compute in H. discriminate H.
  - vm_compute. reflexivity.
Qed.

(** C4, amended. The constructor replaces a [basePrice] of 0 by the
    default 10 and stores every truthy [basePrice] unchanged; the division
    of [getBillingSummary] is unguarded: when the summed [baseAmount] is
    zero, [savingsPercentage] is [NaN] or infinite, and for [cycles <= 0]
    the total is 0 and [savingsPercentage] is [NaN]. *)
Theorem degenerate_configuration :
  (forall options, opt_basePrice options = Some 0%float ->
     basePrice (constructor options) = 10%float) /\
  (forall options x, opt_basePrice options = Some x -> truthy x = true ->
     basePrice (constructor options) = x) /\
  (forall this cycles,
     is_zero (reduce_sum baseAmount
                (fst (generateBillingSchedule this cycles))) = true ->
     is_finite (BillingSummary.savingsPercentage
                  (fst (getBillingSummary this cycles))) = false) /\
  (forall this cycles, cycles <= 0 ->
     BillingSummary.totalBaseAmount (fst (getBillingSummary this cycles))
       = 0%float /\
     BillingSummary.savingsPercentage (fst (getBillingSummary this cycles))
       = nan).
Proof.
  split; [| split; [| split]].
  - intros options H. cbn [constructor basePrice]. now rewrite H.
  - intros options x H Hx. cbn [constructor basePrice]. rewrite H.
    cbn [or_number]. now rewrite Hx.
  - intros this cycles Hz. unfold getBillingSummary.
    destruct (generateBillingSchedule this cycles) as [schedule this'].
    cbn [fst BillingSummary.savingsPercentage] in *.
    now apply percent_of_division_by_zero.
  - intros this cycles Hc. unfold getBillingSummary.
    rewrite generateBillingSchedule_nonpositive by assumption.
    split; reflexivity.
Qed.

Lemma degenerate_configuration_witness :
  basePrice (constructor (priced 0 0.05)) = 10%float /\
  basePrice (constructor (priced (-5) 0.05)) = (-5)%float /\
  is_finite (BillingSummary.savingsPercentage
               (fst (getBillingSummary (constructor (priced 0.001 0.05)) 3)))
    = false /\
  BillingSummary.savingsPercentage (fst (getBillingSummary fresh 0)) = nan.
Proof.
  destruct degenerate_configuration as (Hzero & Htruthy & Hdiv & Hnone).
  split; [| split; [| split]].
  - exact (Hzero (priced 0 0.05) eq_refl).
  - exact (Htruthy (priced (-5) 0.05) (-5)%float eq_refl eq_refl).
  - apply Hdiv. vm_compute. reflexivity.
  - exact (proj2 (Hnone fresh 0 ltac:(lia))).
Defined.

(** * Further properties of the engine *)

(** ** The cache is a prefix of the sequence *)

Section FibonacciCache.

Lemma fibonacci_step k :
  fibonacci (S (S k)) = (fibonacci (S k) + fibonacci k)%float.
Proof.
  unfold fibonacci. cbn [fibonacci_pair].
  now destruct (fibonacci_pair k) as [a b].
Qed.

Lemma fibonacci_positive_ascending k :
  0 < rank (fibonacci k) /\ rank (fibonacci k) <= rank (fibonacci (S k)).
Proof.
  induction k as [| k [IHp IHa]].
  - split; [apply Z.ltb_lt | apply Z.leb_le]; vm_compute; reflexivity.
  - split; [lia |]. rewrite fibonacci_step.
    apply add_lower; lia.
Qed.

Lemma fibonacci_monotone i j :
  (i <= j)%nat -> rank (fibonacci i) <= rank (fibonacci j).
Proof.
  induction 1 as [| j _ IH]; [lia |].
  pose proof (fibonacci_positive_ascending j). lia.
Qed.

Lemma nth_fibonacci n i :
  (i < n)%nat -> nth_error (map fibonacci (seq 0 n)) i = Some (fibonacci i).
Proof.
  intros Hi. rewrite nth_error_map, nth_error_seq.
  destruct (Nat.ltb_spec i n); [reflexivity | lia].
Qed.

Lemma initial_sequence_fibonacci :
  initial_sequence = map fibonacci (seq 0 11).
Proof. reflexivity. Qed.

(** A cache of at least two terms of the sequence is extended by
    [nextFib] with the next term. *)
Lemma nextFib_fibonacci this n :
  (2 <= n)%nat -> sequence this = map fibonacci (seq 0 n) ->
  nextFib this = fibonacci n.
Proof.
  intros Hn Hseq. unfold nextFib, length. rewrite Hseq.
  rewrite length_map, length_seq, !index_nth by lia.
  replace (Z.to_nat (Z.of_nat n - 1)) with (S (n - 2)) by lia.
  replace (Z.to_nat (Z.of_nat n - 2)) with (n - 2)%nat by lia.
  rewrite !nth_fibonacci by lia. cbn [to_number].
  rewrite <- fibonacci_step. f_equal. lia.
Qed.

Lemma fibonacci_cache_push this n :
  (2 <= n)%nat -> sequence this = map fibonacci (seq 0 n) ->
  sequence (push this (nextFib this)) = map fibonacci (seq 0 (S n)).
Proof.
  intros Hn Hseq. cbn [push sequence].
  rewrite (nextFib_fibonacci this n Hn Hseq), Hseq, seq_S, map_app.
  reflexivity.
Qed.

Lemma fibonacci_cache_getNextTerm this k n :
  (11 <= n)%nat -> sequence this = map fibonacci (seq 0 n) ->
  exists n', (11 <= n')%nat /\
    sequence (snd (getNextTerm this k)) = map fibonacci (seq 0 n').
Proof.
  intros Hn Hseq. destruct (getNextTerm_cases this k) as [-> | [_ ->]].
  - now exists n.
  - exists (S n). split; [lia |]. apply fibonacci_cache_push; [lia | assumption].
Qed.

Lemma fibonacci_cache_schedule this (m : nat) n :
  (11 <= n)%nat -> sequence this = map fibonacci (seq 0 n) ->
  exists n', (11 <= n')%nat /\
    sequence (snd (generateBillingSchedule this (Z.of_nat m)))
      = map fibonacci (seq 0 n').
Proof.
  intros Hn Hseq. induction m as [| m (n' & Hn' & IH)].
  - now exists n.
  - rewrite generateBillingSchedule_succ. cbn [snd].
    rewrite calculateNextBilling_state.
    now apply (fibonacci_cache_getNextTerm _ _ n').
Qed.

Lemma fibonacci_cache_schedule_Z this m n :
  (11 <= n)%nat -> sequence this = map fibonacci (seq 0 n) ->
  exists n', (11 <= n')%nat /\
    sequence (snd (generateBillingSchedule this m)) = map fibonacci (seq 0 n').
Proof.
  intros Hn Hseq. destruct (Z.le_gt_cases m 0) as [Hle | Hgt].
  - rewrite generateBillingSchedule_nonpositive by assumption. now exists n.
  - rewrite <- (Z2Nat.id m) by lia. now apply (fibonacci_cache_schedule _ _ n).
Qed.

Lemma reachable_fibonacci_cache this :
  reachable this ->
  exists n, (11 <= n)%nat /\ sequence this = map fibonacci (seq 0 n).
Proof.
  induction 1 as [options | this k _ (n & Hn & IH) | this k _ (n & Hn & IH)
                  | this m _ (n & Hn & IH) | this m _ (n & Hn & IH)].
  - exists 11%nat. split; [lia | reflexivity].
  - now apply (fibonacci_cache_getNextTerm _ _ n).
  - rewrite calculateNextBilling_state.
    now apply (fibonacci_cache_getNextTerm _ _ n).
  - now apply (fibonacci_cache_schedule_Z _ _ n).
  - rewrite getBillingSummary_state.
    now apply (fibonacci_cache_schedule_Z _ _ n).
Qed.

End FibonacciCache.

(** X1. On every engine a program can hold, the cache has at least 11
    entries and is a prefix of the sequence 1, 2, 3, 5, ...: the entry at
    index [i] is the term number [i], each term from the third on being
    the binary64 sum of its two predecessors.  The content of the cache
    depends on its length only. *)
Theorem reachable_cache_is_fibonacci this :
  reachable this ->
  (11 <= List.length (sequence this))%nat /\
  sequence this = map fibonacci (seq 0 (List.length (sequence this))) /\
  forall i, (i + 2 < List.length (sequence this))%nat ->
    nth_error (sequence this) (i + 2) =
      Some (to_number (nth_error (sequence this) (i + 1)) +
            to_number (nth_error (sequence this) i))%float.
Proof.
  intros Hreach.
  destruct (reachable_fibonacci_cache this Hreach) as (n & Hn & Hseq).
  assert (Hlen : List.length (sequence this) = n)
    by (rewrite Hseq, length_map, length_seq; reflexivity).
  rewrite Hlen. split; [assumption |]. split; [assumption |].
  intros i Hi. rewrite Hseq, !nth_fibonacci by lia. cbn [to_number].
  f_equal. replace (i + 2)%nat with (S (S i)) by lia.
  replace (i + 1)%nat with (S i) by lia. apply fibonacci_step.
Qed.

Lemma reachable_cache_is_fibonacci_witness :
  nth_error (sequence (snd (generateBillingSchedule fresh 14))) 13
    = Some (fibonacci 13).
Proof.
  pose proof (reachable_cache_is_fibonacci
                (snd (generateBillingSchedule fresh 14))
                (reach_generateBillingSchedule fresh 14
                   (reach_new no_options))) as (_ & Hseq & _).
  rewrite Hseq. apply nth_fibonacci. vm_compute. lia.
Defined.

(** ** What [getNextTerm] returns *)

Section TermValue.

Lemma same_config_capped a b t :
  same_config a b -> capped b t = capped a t.
Proof.
  intros (_ & _ & Hc & Hm). unfold capped. now rewrite Hc, Hm.
Qed.

Lemma same_config_billing_for a b k t :
  same_config a b -> billing_for b k t = billing_for a k t.
Proof.
  intros (Hb & Hd & _ & _). unfold billing_for. now rewrite Hb, Hd.
Qed.

Lemma same_config_sym a b : same_config a b -> same_config b a.
Proof. unfold same_config. intros (-> & -> & -> & ->). repeat split. Qed.

Lemma calculateNextBilling_billing_for this k :
  fst (calculateNextBilling this k)
    = billing_for this k (fst (getNextTerm this k)).
Proof.
  destruct (getNextTerm_frame this k) as [(Hb & Hd & _) _].
  unfold calculateNextBilling, billing_for.
  destruct (getNextTerm this k) as [term this']. cbn [fst snd] in *.
  now rewrite Hb, Hd.
Qed.

Lemma getNextTerm_length this k :
  0 <= k ->
  length (sequence (snd (getNextTerm this k))) =
    if length (sequence this) <=? k
    then length (sequence this) + 1 else length (sequence this).
Proof.
  intros Hk. destruct (Z.leb_spec (length (sequence this)) k) as [Hle | Hlt].
  - rewrite getNextTerm_beyond by assumption. cbn [snd push sequence].
    unfold length. rewrite length_app. cbn [List.length]. lia.
  - now rewrite getNextTerm_cached by lia.
Qed.

Lemma uncapped_fibonacci this k :
  reachable this -> 0 <= k ->
  uncapped this k
    = fibonacci (Z.to_nat (Z.min k (length (sequence this)))).
Proof.
  intros Hreach Hk.
  pose proof (reachable_cache_ok this Hreach) as Hok.
  destruct (reachable_fibonacci_cache this Hreach) as (n & Hn & Hseq).
  assert (Hlen : length (sequence this) = Z.of_nat n)
    by (unfold length; rewrite Hseq, length_map, length_seq; reflexivity).
  destruct (uncapped_cases this k Hok) as [[Hneg _] | [[Hin E] | [Hout E]]].
  - lia.
  - rewrite Hseq, nth_fibonacci in E by lia. injection E as <-.
    now rewrite Z.min_l by lia.
  - rewrite E, Z.min_r, Hlen, Nat2Z.id by lia.
    apply nextFib_fibonacci; [lia | assumption].
Qed.

Lemma getNextTerm_term this k :
  reachable this -> 0 <= k ->
  fst (getNextTerm this k)
    = capped this (fibonacci (Z.to_nat (Z.min k (length (sequence this))))).
Proof.
  intros Hreach Hk.
  rewrite getNextTerm_uncapped, uncapped_fibonacci by assumption.
  destruct (Z.ltb_spec k 0); [lia | reflexivity].
Qed.

Lemma getNextTerm_value_cached this k :
  reachable this -> 0 <= k <= length (sequence this) ->
  fst (getNextTerm this k) = capped this (fibonacci (Z.to_nat k)) /\
  (k < length (sequence this) -> snd (getNextTerm this k) = this).
Proof.
  intros Hreach Hk. split.
  - rewrite getNextTerm_term by (assumption || lia).
    now rewrite Z.min_l by lia.
  - intros Hlt. now rewrite getNextTerm_cached by lia.
Qed.

End TermValue.

(** X2. On every engine a program can hold, with a cache of [len]
    entries, [getNextTerm(k)] for [k >= 0] returns the term number
    [min(k, len)] of the sequence, capped when the cap is on, and leaves
    a cache of [len + 1] entries when [k >= len], of [len] entries
    otherwise.  So the term is the one of index [k] whenever
    [k <= len]. *)
Theorem getNextTerm_value this k :
  reachable this -> 0 <= k ->
  fst (getNextTerm this k)
    = capped this (fibonacci (Z.to_nat (Z.min k (length (sequence this))))) /\
  length (sequence (snd (getNextTerm this k)))
    = (if length (sequence this) <=? k
       then length (sequence this) + 1 else length (sequence this)) /\
  (k <= length (sequence this) ->
   fst (getNextTerm this k) = capped this (fibonacci (Z.to_nat k))).
Proof.
  intros Hreach Hk.
  split; [now apply getNextTerm_term |].
  split; [now apply getNextTerm_length |].
  intros Hle. now apply getNextTerm_value_cached.
Qed.

Lemma getNextTerm_value_witness :
  fst (getNextTerm fresh 11) = capped fresh (fibonacci (Z.to_nat 11)).
Proof.
  exact (proj2 (proj2 (getNextTerm_value fresh 11 (reach_new no_options)
                         ltac:(lia))) ltac:(vm_compute; discriminate)).
Defined.

(** ** Schedules, whatever the state of the cache *)

Section ScheduleValue.

Lemma schedule_state_length this (n : nat) :
  length (sequence (snd (generateBillingSchedule this (Z.of_nat n))))
    = Z.max (length (sequence this)) (Z.of_nat n).
Proof.
  induction n as [| n IH].
  - unfold length. cbn. lia.
  - rewrite generateBillingSchedule_succ. cbn [snd].
    rewrite calculateNextBilling_state, getNextTerm_length, IH by lia.
    destruct (Z.leb_spec (Z.max (length (sequence this)) (Z.of_nat n))
                (Z.of_nat n)); lia.
Qed.

Lemma schedule_reachable this (n : nat) :
  reachable this -> reachable (snd (generateBillingSchedule this (Z.of_nat n))).
Proof. apply reach_generateBillingSchedule. Qed.

Lemma schedule_closed_form this (n : nat) :
  reachable this ->
  fst (generateBillingSchedule this (Z.of_nat n)) =
    map (fun i => billing_for this (Z.of_nat i) (capped this (fibonacci i)))
        (seq 0 n).
Proof.
  intros Hreach. induction n as [| n IH]; [reflexivity |].
  rewrite generateBillingSchedule_succ. cbn [fst].
  rewrite IH, seq_S, map_app. cbn [map]. f_equal. f_equal.
  set (that := snd (generateBillingSchedule this (Z.of_nat n))).
  destruct (generateBillingSchedule_frame this n) as [Hcfg _]. fold that in Hcfg.
  assert (Hthat : reachable that) by now apply schedule_reachable.
  rewrite calculateNextBilling_billing_for.
  rewrite (same_config_billing_for this that) by assumption. f_equal.
  destruct (getNextTerm_value_cached that (Z.of_nat n) Hthat) as [Hterm _].
  { unfold that. rewrite schedule_state_length. lia. }
  rewrite Hterm, Nat2Z.id. now apply same_config_capped.
Qed.

End ScheduleValue.

Section ScheduleTheorems.

Lemma generateBillingSchedule_to_nat this n :
  generateBillingSchedule this n
    = generateBillingSchedule this (Z.of_nat (Z.to_nat n)).
Proof. unfold generateBillingSchedule. now rewrite Nat2Z.id. Qed.

Lemma nth_map_seq {A} (f : nat -> A) n i :
  (i < n)%nat -> nth_error (map f (seq 0 n)) i = Some (f i).
Proof.
  intros Hi. apply map_nth_error. rewrite nth_error_nth' with (d := 0%nat)
    by now rewrite length_seq.
  now rewrite seq_nth.
Qed.

Lemma nth_error_Some_length {A} (l : list A) i x :
  nth_error l i = Some x -> (i < List.length l)%nat.
Proof. intros H. apply nth_error_Some. congruence. Qed.

Lemma getBillingSummary_of_schedule a b n :
  fst (generateBillingSchedule b n) = fst (generateBillingSchedule a n) ->
  fst (getBillingSummary b n) = fst (getBillingSummary a n).
Proof.
  unfold getBillingSummary.
  destruct (generateBillingSchedule a n) as [sa a'],
           (generateBillingSchedule b n) as [sb b'].
  cbn [fst]. now intros ->.
Qed.

Lemma schedule_closed_form_Z this n :
  reachable this ->
  fst (generateBillingSchedule this n) =
    map (fun i => billing_for this (Z.of_nat i) (capped this (fibonacci i)))
        (seq 0 (Z.to_nat n)).
Proof.
  intros Hreach. rewrite generateBillingSchedule_to_nat.
  now apply schedule_closed_form.
Qed.

Lemma schedule_state_length_Z this n :
  length (sequence (snd (generateBillingSchedule this n)))
    = Z.max (length (sequence this)) n.
Proof.
  rewrite generateBillingSchedule_to_nat, schedule_state_length.
  unfold length. lia.
Qed.

End ScheduleTheorems.

(** X3. On every engine a program can hold, whatever its cache holds,
    [generateBillingSchedule(cycles)] is the list, for [i] from 0 to
    [cycles - 1], of the record computed from the term number [i] of the
    sequence 1, 2, 3, 5, ... (capped when the cap is on), with
    [cycle = i + 1]. *)
Theorem generateBillingSchedule_closed_form this n :
  reachable this ->
  fst (generateBillingSchedule this n) =
    map (fun i => billing_for this (Z.of_nat i) (capped this (fibonacci i)))
        (seq 0 (Z.to_nat n)).
Proof. apply schedule_closed_form_Z. Qed.

Lemma generateBillingSchedule_closed_form_witness :
  fst (generateBillingSchedule (snd (getNextTerm fresh 40)) 14) =
    map (fun i => billing_for (snd (getNextTerm fresh 40)) (Z.of_nat i)
                    (capped (snd (getNextTerm fresh 40)) (fibonacci i)))
        (seq 0 (Z.to_nat 14)).
Proof.
  apply generateBillingSchedule_closed_form.
  apply reach_getNextTerm, (reach_new no_options).
Defined.

(** X4. For every engine and every [cycles], the cache left by
    [generateBillingSchedule(cycles)] has [max(length, cycles)] entries,
    [length] being the size of the cache before the call. *)
Theorem generateBillingSchedule_cache_depth this n :
  length (sequence (snd (generateBillingSchedule this n)))
    = Z.max (length (sequence this)) n.
Proof. apply schedule_state_length_Z. Qed.

(** X5. Two engines a program can hold that have the same configuration
    return the same schedule and the same summary, whatever calls each
    has served before: only single-cycle calls depend on the cache. *)
Theorem schedule_and_summary_ignore_cache a b n :
  reachable a -> reachable b -> same_config a b ->
  fst (generateBillingSchedule b n) = fst (generateBillingSchedule a n) /\
  fst (getBillingSummary b n) = fst (getBillingSummary a n).
Proof.
  intros Ha Hb Hcfg.
  assert (E : fst (generateBillingSchedule b n)
              = fst (generateBillingSchedule a n)).
  { rewrite (schedule_closed_form_Z a), (schedule_closed_form_Z b)
      by assumption.
    apply map_ext. intros i.
    now rewrite (same_config_billing_for a b), (same_config_capped a b). }
  split; [exact E | now apply getBillingSummary_of_schedule].
Qed.

Lemma schedule_and_summary_ignore_cache_witness :
  fst (generateBillingSchedule (snd (generateBillingSchedule fresh 20)) 15)
    = fst (generateBillingSchedule fresh 15) /\
  fst (getBillingSummary (snd (generateBillingSchedule fresh 20)) 15)
    = fst (getBillingSummary fresh 15).
Proof.
  apply schedule_and_summary_ignore_cache.
  - apply (reach_new no_options).
  - apply reach_generateBillingSchedule, (reach_new no_options).
  - apply generateBillingSchedule_frame_Z.
Defined.

(** X6. Once a schedule of [cycles] cycles has been generated on an
    engine a program can hold, [calculateNextBilling(k)] for
    [0 <= k < cycles] returns the entry number [k] of that schedule and
    leaves the engine as it is. *)
Theorem calculateNextBilling_after_schedule this n k :
  reachable this -> 0 <= k < n ->
  nth_error (fst (generateBillingSchedule this n)) (Z.to_nat k)
    = Some (fst (calculateNextBilling
                   (snd (generateBillingSchedule this n)) k)) /\
  snd (calculateNextBilling (snd (generateBillingSchedule this n)) k)
    = snd (generateBillingSchedule this n).
Proof.
  intros Hreach Hk.
  pose proof (schedule_closed_form_Z this n Hreach) as Hsched.
  pose proof (schedule_state_length_Z this n) as Hdepth.
  destruct (generateBillingSchedule_frame_Z this n) as [Hcfg _].
  pose proof (reach_generateBillingSchedule this n Hreach) as Hthat.
  destruct (generateBillingSchedule this n) as [schedule that].
  cbn [fst snd] in *. split.
  - rewrite Hsched, nth_map_seq by lia. f_equal.
    rewrite calculateNextBilling_billing_for, Z2Nat.id by lia.
    rewrite (same_config_billing_for this that) by assumption. f_equal.
    destruct (getNextTerm_value_cached that k Hthat) as [-> _]; [lia |].
    symmetry. now apply same_config_capped.
  - rewrite calculateNextBilling_state, getNextTerm_cached by lia.
    reflexivity.
Qed.

Lemma calculateNextBilling_after_schedule_witness :
  nth_error (fst (generateBillingSchedule fresh 14)) (Z.to_nat 12)
    = Some (fst (calculateNextBilling
                   (snd (generateBillingSchedule fresh 14)) 12)).
Proof.
  exact (proj1 (calculateNextBilling_after_schedule fresh 14 12
                  (reach_new no_options) ltac:(lia))).
Defined.

(** ** Bounds on the term *)

Section TermBounds.

Lemma cap_on_positive this :
  cap_on this = true ->
  is_nan (maxTerm this) = false /\ 0 < rank (maxTerm this).
Proof.
  unfold cap_on. rewrite andb_true_iff. intros [_ Hpos].
  destruct (ltb_true_not_nan _ _ Hpos) as [_ Nm]. split; [assumption |].
  rewrite (ltb_rank 0 (maxTerm this) eq_refl Nm), rank_0 in Hpos.
  now apply Z.ltb_lt.
Qed.

Lemma capped_rank this u :
  0 < rank u ->
  rank (capped this u)
    = (if cap_on this then Z.min (rank u) (rank (maxTerm this)) else rank u).
Proof.
  intros Hu. unfold capped. fold (cap_on this).
  destruct (cap_on this) eqn:Hcap; [| reflexivity].
  destruct (cap_on_positive this Hcap) as [Nm _].
  pose proof (rank_positive_not_nan u Hu) as Nu.
  destruct (Math_min_cases u (maxTerm this)) as [[Hnan _] | (_ & _ & _ & E)];
    [| exact E].
  rewrite Nu, Nm in Hnan. discriminate.
Qed.

Lemma capped_positive this u : 0 < rank u -> 0 < rank (capped this u).
Proof.
  intros Hu. rewrite capped_rank by assumption.
  destruct (cap_on this) eqn:Hcap; [| assumption].
  destruct (cap_on_positive this Hcap). lia.
Qed.

Lemma capped_monotone this u v :
  0 < rank u -> rank u <= rank v ->
  rank (capped this u) <= rank (capped this v).
Proof.
  intros Hu Huv. rewrite !capped_rank by lia.
  destruct (cap_on this); lia.
Qed.

Lemma positive_rank x : 0 < rank x -> (0 <? x)%float = true.
Proof.
  intros Hx. rewrite (ltb_rank 0 x eq_refl (rank_positive_not_nan x Hx)), rank_0.
  now apply Z.ltb_lt.
Qed.

Lemma leb_of_rank x y :
  0 < rank x -> rank x <= rank y -> (x <=? y)%float = true.
Proof.
  intros Hx Hxy.
  rewrite leb_rank by (apply rank_positive_not_nan; lia).
  now apply Z.leb_le.
Qed.

Lemma getNextTerm_positive this k :
  cache_ok (sequence this) -> 0 < rank (fst (getNextTerm this k)).
Proof.
  intros Hok. rewrite getNextTerm_uncapped.
  pose proof (uncapped_positive this k Hok).
  destruct (k <? 0); [assumption | now apply capped_positive].
Qed.

End TermBounds.

(** X7. On every engine a program can hold, every call of
    [getNextTerm] returns a number above 0 (so never [NaN]); with the cap
    in force and [k >= 0] the number is at most [maxTerm], and it is
    [maxTerm] itself or the term of the sequence that was selected. *)
Theorem getNextTerm_bounds this k :
  reachable this ->
  (0 <? fst (getNextTerm this k))%float = true /\
  (cap_on this = true -> 0 <= k ->
   (fst (getNextTerm this k) <=? maxTerm this)%float = true /\
   (fst (getNextTerm this k) = maxTerm this \/
    fst (getNextTerm this k)
      = fibonacci (Z.to_nat (Z.min k (length (sequence this)))))).
Proof.
  intros Hreach. pose proof (reachable_cache_ok this Hreach) as Hok.
  pose proof (getNextTerm_positive this k Hok) as Hpos.
  split; [now apply positive_rank |].
  intros Hcap Hk. split.
  - apply leb_of_rank; [assumption |].
    rewrite getNextTerm_uncapped.
    destruct (Z.ltb_spec k 0); [lia |].
    rewrite capped_rank, Hcap by now apply uncapped_positive. lia.
  - rewrite getNextTerm_term by assumption.
    unfold capped. fold (cap_on this). rewrite Hcap.
    destruct (Math_min_cases
                (fibonacci (Z.to_nat (Z.min k (length (sequence this)))))
                (maxTerm this)) as [[_ E] | (_ & _ & [E | E] & _)];
      rewrite E; auto.
    destruct (cap_on_positive this Hcap) as [Nm _].
    exfalso. rewrite getNextTerm_term in Hpos by assumption.
    unfold capped in Hpos. fold (cap_on this) in Hpos.
    rewrite Hcap, E in Hpos. vm_compute in Hpos. discriminate.
Qed.

Lemma getNextTerm_bounds_witness :
  (fst (getNextTerm (constructor (capping 6)) 9)
     <=? maxTerm (constructor (capping 6)))%float = true.
Proof.
  exact (proj1 (proj2 (getNextTerm_bounds (constructor (capping 6)) 9
                         (reach_new (capping 6)))
                  eq_refl ltac:(lia))).
Defined.

(** X8. For a negative [currentCycle], [getNextTerm] returns 1, the first
    term, on every engine a program can hold, and leaves the engine as it
    is; the cap is not applied on this path, in force or not. *)
Theorem getNextTerm_negative_cycle this k :
  reachable this -> k < 0 ->
  getNextTerm this k = (1%float, this).
Proof.
  intros Hreach Hk. rewrite getNextTerm_negative by assumption.
  destruct (reachable_fibonacci_cache this Hreach) as (n & Hn & Hseq).
  rewrite index_nth, Hseq, nth_fibonacci by lia. reflexivity.
Qed.

Lemma getNextTerm_negative_cycle_witness :
  getNextTerm (constructor (capping 0.5)) (-1)
    = (1%float, constructor (capping 0.5)) /\
  fst (getNextTerm (constructor (capping 0.5)) 0) = 0.5%float.
Proof.
  split.
  - apply getNextTerm_negative_cycle; [apply (reach_new (capping 0.5)) | lia].
  - reflexivity.
Defined.

(** X9. Along a schedule generated on an engine a program can hold,
    [termMonths] never decreases from one entry to a later one, with the
    cap or without it. *)
Theorem generateBillingSchedule_terms_ascend this n i j a b :
  reachable this -> (i <= j)%nat ->
  nth_error (fst (generateBillingSchedule this n)) i = Some a ->
  nth_error (fst (generateBillingSchedule this n)) j = Some b ->
  (termMonths a <=? termMonths b)%float = true.
Proof.
  intros Hreach Hij Ha Hb.
  rewrite schedule_closed_form_Z in Ha, Hb by assumption.
  assert (Hj : (j < Z.to_nat n)%nat).
  { apply nth_error_Some_length in Hb. now rewrite length_map, length_seq in Hb. }
  rewrite nth_map_seq in Ha, Hb by lia.
  injection Ha as <-. injection Hb as <-. cbn [termMonths billing_for].
  pose proof (fibonacci_positive_ascending i) as [Hpos _].
  pose proof (fibonacci_monotone i j Hij) as Hmono.
  apply leb_of_rank; [now apply capped_positive | now apply capped_monotone].
Qed.

Lemma generateBillingSchedule_terms_ascend_witness :
  (termMonths (billing_for (constructor (capping 6)) 2
                 (capped (constructor (capping 6)) (fibonacci 2)))
   <=? termMonths (billing_for (constructor (capping 6)) 7
                     (capped (constructor (capping 6)) (fibonacci 7))))%float
    = true.
Proof.
  apply (generateBillingSchedule_terms_ascend (constructor (capping 6)) 10
           2%nat 7%nat).
  - apply (reach_new (capping 6)).
  - lia.
  - vm_compute. reflexivity.
  - vm_compute. reflexivity.
Defined.

(** ** The configuration of an engine *)

Section Configuration.

Lemma reachable_config this :
  reachable this -> exists options, same_config (constructor options) this.
Proof.
  induction 1 as [options | this k _ [o IH] | this k _ [o IH]
                 | this n _ [o IH] | this n _ [o IH]].
  - exists options. apply same_config_refl.
  - exists o. eapply same_config_trans; [exact IH | apply getNextTerm_frame].
  - exists o. rewrite calculateNextBilling_state.
    eapply same_config_trans; [exact IH | apply getNextTerm_frame].
  - exists o. eapply same_config_trans;
      [exact IH | apply generateBillingSchedule_frame_Z].
  - exists o. rewrite getBillingSummary_state.
    eapply same_config_trans;
      [exact IH | apply generateBillingSchedule_frame_Z].
Qed.

Lemma or_number_truthy field dflt :
  truthy dflt = true -> truthy (or_number field dflt) = true.
Proof.
  intros Hd. unfold or_number. destruct field as [x |]; [| assumption].
  now destruct (truthy x) eqn:Hx.
Qed.

Lemma or_number_not_nan field dflt :
  is_nan dflt = false -> is_nan (or_number field dflt) = false.
Proof.
  intros Hd. unfold or_number. destruct field as [x |]; [| assumption].
  destruct (truthy x) eqn:Hx; [| assumption].
  unfold truthy in Hx. rewrite negb_true_iff, orb_false_iff in Hx. tauto.
Qed.

End Configuration.

(** X10. On every engine a program can hold, [basePrice] and
    [discountRate] are neither 0 nor [NaN], and [maxTerm] is not [NaN]:
    the constructor replaces a falsy option by its default, and no
    method writes these fields.  A discount rate of 0 cannot be
    configured. *)
Theorem reachable_configuration this :
  reachable this ->
  truthy (basePrice this) = true /\
  truthy (discountRate this) = true /\
  is_nan (maxTerm this) = false.
Proof.
  intros Hreach.
  destruct (reachable_config this Hreach) as [o (Hb & Hd & _ & Hm)].
  rewrite Hb, Hd, Hm. cbn [constructor basePrice discountRate maxTerm].
  repeat split.
  - now apply or_number_truthy.
  - now apply or_number_truthy.
  - now apply or_number_not_nan.
Qed.

Lemma reachable_configuration_witness :
  truthy (discountRate (snd (getBillingSummary (constructor (priced 20 0)) 8)))
    = true.
Proof.
  exact (proj1 (proj2 (reachable_configuration _
    (reach_getBillingSummary _ 8 (reach_new (priced 20 0)))))).
Defined.

(** X11. For [cycles <= 0], on every engine, [generateBillingSchedule]
    returns the empty list and [getBillingSummary] a summary whose
    [cycles] is the argument, whose totals are 0 and whose
    [savingsPercentage] and [effectiveMonthlyRate] are [NaN]; neither
    changes the engine. *)
Theorem no_cycles this n :
  n <= 0 ->
  generateBillingSchedule this n = ([], this) /\
  getBillingSummary this n =
    ({| BillingSummary.cycles := n;
        BillingSummary.totalMonths := 0;
        BillingSummary.totalAmount := 0;
        BillingSummary.totalBaseAmount := 0;
        BillingSummary.totalSavings := 0;
        BillingSummary.savingsPercentage := nan;
        BillingSummary.effectiveMonthlyRate := nan |}%float, this).
Proof.
  intros Hn. split; [now apply generateBillingSchedule_nonpositive |].
  unfold getBillingSummary.
  rewrite generateBillingSchedule_nonpositive by assumption.
  reflexivity.
Qed.

Lemma no_cycles_witness :
  BillingSummary.cycles (fst (getBillingSummary fresh (-3))) = -3.
Proof.
  pose proof (no_cycles fresh (-3) ltac:(lia)) as [_ H].
  now rewrite H.
Defined.

(** ** Exactness of the cached terms *)

Section Exact.

Lemma fibonacci_exact_checked :
  forallb (fun k => rank (fibonacci k) =? fibonacci_Z k * 2 ^ bias)
          (seq 0 77) = true.
Proof. vm_compute. reflexivity. Qed.

Lemma fibonacci_exact k :
  (k <= 76)%nat -> rank (fibonacci k) = fibonacci_Z k * 2 ^ bias.
Proof.
  intros Hk. pose proof fibonacci_exact_checked as H.
  rewrite forallb_forall in H. apply Z.eqb_eq, H, in_seq. lia.
Qed.

End Exact.

(** X12. On every engine a program can hold, the cached term of index
    [i <= 76] is the exact integer of the recurrence (its order key is
    that integer scaled by [2 ^ bias]): no sum has been rounded.  The
    term of index 77 is the first that is not exact. *)
Theorem cached_terms_exact this i x :
  reachable this -> (i <= 76)%nat ->
  nth_error (sequence this) i = Some x ->
  rank x = fibonacci_Z i * 2 ^ bias /\
  rank (fibonacci 77) <> fibonacci_Z 77 * 2 ^ bias.
Proof.
  intros Hreach Hi Hx.
  destruct (reachable_fibonacci_cache this Hreach) as (n & Hn & Hseq).
  assert (Hlt : (i < n)%nat).
  { apply nth_error_Some_length in Hx.
    now rewrite Hseq, length_map, length_seq in Hx. }
  rewrite Hseq, nth_fibonacci in Hx by assumption. injection Hx as <-.
  split; [now apply fibonacci_exact |].
  apply Z.eqb_neq. vm_compute. reflexivity.
Qed.

Lemma cached_terms_exact_witness :
  rank 144%float = fibonacci_Z 10 * 2 ^ bias.
Proof.
  exact (proj1 (cached_terms_exact fresh 10 144%float (reach_new no_options)
                  ltac:(lia) eq_refl)).
Defined.

(** ** Signs of the amounts *)

Section Nonnegative.

Lemma has_sign_not_nan s x : has_sign s (Prim2SF x) -> is_nan x = false.
Proof.
  intros H. apply is_nan_false. intros E. rewrite E in H. exact H.
Qed.

Lemma has_sign_false_leb x :
  has_sign false (Prim2SF x) -> (0 <=? x)%float = true.
Proof.
  intros H. rewrite leb_spec.
  change (Prim2SF 0) with (S754_zero false).
  destruct (Prim2SF x) as [s | s | | s m e]; cbn [has_sign] in H;
    try contradiction; subst; reflexivity.
Qed.

Lemma has_sign_false_ltb x :
  has_sign false (Prim2SF x) -> (x <? 0)%float = false.
Proof.
  intros H. rewrite ltb_spec.
  change (Prim2SF 0) with (S754_zero false).
  destruct (Prim2SF x) as [s | s | | s m e]; cbn [has_sign] in H;
    try contradiction; subst; reflexivity.
Qed.

Lemma positive_has_sign x : 0 < rank x -> has_sign false (Prim2SF x).
Proof.
  unfold rank. assert (HT : 0 < top) by (apply pow2_gt0; lia).
  destruct (Prim2SF x) as [s | [] | | [] m e]; cbn [key cond_Zopp has_sign];
    try lia; try reflexivity.
  pose proof (scaled_nonneg m e). lia.
Qed.

Lemma round2_has_sign x :
  has_sign false (Prim2SF x) -> has_sign false (Prim2SF (round2 x)).
Proof.
  intros H. unfold round2, toFixed2.
  rewrite (has_sign_not_nan _ _ H), (has_sign_false_ltb _ H).
  destruct (is_infinity x); [reflexivity |].
  destruct (1e21 <=? x)%float; [exact H |].
  cbn [parseFloat]. apply hundredths_magnitude_has_sign.
Qed.

Lemma mul_has_sign x y :
  has_sign false (Prim2SF x) -> has_sign false (Prim2SF y) ->
  is_nan (x * y)%float = false ->
  has_sign false (Prim2SF (x * y)%float).
Proof.
  intros Hx Hy Hn. apply is_nan_false in Hn. revert Hn.
  rewrite mul_spec. unfold SF64mul.
  destruct (Prim2SF x) as [sx | sx | | sx mx ex],
           (Prim2SF y) as [sy | sy | | sy my ey];
    cbn [has_sign] in Hx, Hy; try contradiction; subst;
    cbn [SFmul xorb has_sign]; try reflexivity; try congruence.
  intros _. apply binary_round_aux_has_sign. lia.
Qed.

Lemma binary_normalize_bounds p ez :
  0 <= ez + bias ->
  (forall mb eb, bounded prec emax mb eb = true ->
     scaled (Zpos mb) eb <= scaled (Zpos p) ez ->
     binary_normalize prec emax (Zpos p) ez false <> S754_nan /\
     scaled (Zpos mb) eb <= key (binary_normalize prec emax (Zpos p) ez false)) /\
  (forall mb eb, bounded prec emax mb eb = true ->
     scaled (Zpos p) ez <= scaled (Zpos mb) eb ->
     binary_normalize prec emax (Zpos p) ez false <> S754_nan /\
     0 <= key (binary_normalize prec emax (Zpos p) ez false)
       <= scaled (Zpos mb) eb).
Proof.
  intros Bz. cbn [binary_normalize]. unfold binary_round.
  rewrite fexp_eq. fold (digits p).
  set (target := fexp64 (digits p + ez)).
  pose proof (shl_align_spec p ez target) as Haz.
  pose proof (shl_align_scaled p ez target) as Hsz.
  destruct (shl_align p ez target) as [mz ez'].
  destruct Haz as (Hez' & _ & Hdz). cbn [fst snd] in Hsz.
  assert (Btarget : 0 <= target + bias) by (unfold target, fexp64, bias; lia).
  specialize (Hsz ltac:(lia)).
  assert (HE : 0 <= ez' + bias) by lia.
  assert (Hal : ez' <= fexp64 (digits mz + ez')).
  { rewrite Hdz. replace (digits p + (ez - ez') + ez')
      with (digits p + ez) by lia.
    fold target. lia. }
  split; intros mb eb Vb Hb; rewrite <- Hsz in Hb.
  - exact (key_round_lower mz ez' mb eb HE Hal Vb Hb).
  - exact (key_round_upper mz ez' mb eb HE Hal Vb Hb).
Qed.

Lemma SFsub_finite mx ex my ey :
  bounded prec emax mx ex = true -> bounded prec emax my ey = true ->
  exists d,
    SF64sub (S754_finite false mx ex) (S754_finite false my ey)
      = binary_normalize prec emax d (Z.min ex ey) false /\
    scaled d (Z.min ex ey) = scaled (Zpos mx) ex - scaled (Zpos my) ey /\
    0 <= Z.min ex ey + bias.
Proof.
  intros Vx Vy.
  pose proof (bounded_bias _ _ Vx) as Bx. pose proof (bounded_bias _ _ Vy) as By.
  unfold SF64sub, SFsub. cbn [cond_Zopp].
  set (ez := Z.min ex ey).
  assert (Bz : 0 <= ez + bias) by (unfold ez; lia).
  pose proof (shl_align_spec mx ex ez) as Hax.
  pose proof (shl_align_scaled mx ex ez) as Hsx.
  pose proof (shl_align_spec my ey ez) as Hay.
  pose proof (shl_align_scaled my ey ez) as Hsy.
  destruct (shl_align mx ex ez) as [mx' ex'].
  destruct (shl_align my ey ez) as [my' ey'].
  destruct Hax as (Hex' & _). destruct Hay as (Hey' & _).
  cbn [fst snd] in *.
  replace ex' with ez in Hsx by (unfold ez in *; lia).
  replace ey' with ez in Hsy by (unfold ez in *; lia).
  specialize (Hsx ltac:(unfold ez in *; lia)).
  specialize (Hsy ltac:(unfold ez in *; lia)).
  exists (Zpos mx' - Zpos my'). split; [reflexivity |]. split; [| exact Bz].
  rewrite <- Hsx, <- Hsy. unfold scaled. ring.
Qed.

Lemma sub_nonneg x y :
  0 < rank y < top -> rank y <= rank x ->
  has_sign false (Prim2SF (x - y)%float).
Proof.
  intros Hy Hxy.
  destruct (rank_finite_positive y Hy) as (my & ey & Ey & Vy & Ry).
  rewrite sub_spec, Ey. unfold rank in Hxy at 2.
  pose proof (Prim2SF_valid x) as Vx.
  assert (HT : 0 < top) by (apply pow2_gt0; lia).
  destruct (Prim2SF x) as [sx | [] | | [] mx ex];
    cbn [key cond_Zopp valid_binary] in Hxy, Vx; try lia;
    try (pose proof (scaled_nonneg mx ex); lia).
  - reflexivity.
  - destruct (SFsub_finite mx ex my ey Vx Vy) as (d & -> & Hd & Bz).
    apply binary_normalize_has_sign.
    assert (0 < 2 ^ (Z.min ex ey + bias)) by (apply pow2_gt0; lia).
    unfold scaled in Hd at 1. rewrite Ry in Hxy. nia.
Qed.

Lemma rank_1 : rank 1%float = 2 ^ bias.
Proof. vm_compute. reflexivity. Qed.

Lemma one_minus_bounds d :
  has_sign false (Prim2SF d) -> rank d <= rank 0.5%float ->
  is_nan (1 - d)%float = false /\
  rank 0.5%float <= rank (1 - d)%float <= rank 1%float.
Proof.
  intros Hd Hle. rewrite is_nan_false. unfold rank at 2 3.
  rewrite sub_spec. pose proof rank_half as Hhalf. pose proof rank_1 as H1.
  assert (HP : 0 < 2 ^ bias) by (apply pow2_gt0; unfold bias; lia).
  assert (HT : rank 0.5%float < top) by apply rank_bounds_50_100.
  pose proof (Prim2SF_valid d) as Vd. unfold rank in Hle at 1.
  change (Prim2SF 1) with (S754_finite false 4503599627370496 (-52)).
  destruct (Prim2SF d) as [sd | sd | | sd md ed]; cbn [has_sign] in Hd;
    try contradiction; subst; cbn [key cond_Zopp valid_binary] in Hle, Vd.
  - cbn [SF64sub SFsub].
    change (key (S754_finite false 4503599627370496 (-52))) with (rank 1%float).
    split; [discriminate | lia].
  - lia.
  - destruct (SFsub_finite 4503599627370496 (-52) md ed eq_refl Vd)
      as (z & -> & Hz & Bz).
    change (scaled (Zpos 4503599627370496) (-52)) with (rank 1%float) in Hz.
    pose proof (bounded_below_top md ed Vd) as [Hdpos _].
    assert (Hpow : 0 < 2 ^ (Z.min (-52) ed + bias)) by (apply pow2_gt0; lia).
    destruct z as [| p | p]; unfold scaled in Hz at 1; try nia.
    fold (scaled (Zpos p) (Z.min (-52) ed)) in Hz.
    destruct (binary_normalize_bounds p _ Bz) as [Hlow Hup].
    destruct (Hlow 4503599627370496%positive (-53)%Z eq_refl) as [Hn Hl].
    { change (scaled (Zpos 4503599627370496) (-53)) with (rank 0.5%float). lia. }
    destruct (Hup 4503599627370496%positive (-52)%Z eq_refl) as [_ Hu].
    { change (scaled (Zpos 4503599627370496) (-52)) with (rank 1%float). lia. }
    change (scaled (Zpos 4503599627370496) (-53)) with (rank 0.5%float) in Hl.
    change (scaled (Zpos 4503599627370496) (-52)) with (rank 1%float) in Hu.
    split; [exact Hn | lia].
Qed.

Lemma mul_not_nan x y :
  is_nan x = false -> is_nan y = false ->
  (rank x = 0 -> Z.abs (rank y) < top) ->
  (rank y = 0 -> Z.abs (rank x) < top) ->
  is_nan (x * y)%float = false.
Proof.
  rewrite !is_nan_false, mul_spec. unfold rank, SF64mul.
  destruct (Prim2SF x) as [sx | sx | | sx mx ex],
           (Prim2SF y) as [sy | sy | | sy my ey];
    cbn [SFmul key]; intros Nx Ny Hx Hy; try discriminate; try congruence.
  - specialize (Hx eq_refl). destruct sy; cbn [cond_Zopp] in Hx; lia.
  - specialize (Hy eq_refl). destruct sx; cbn [cond_Zopp] in Hy; lia.
  - intros E.
    pose proof (binary_round_aux_has_sign (xorb sx sy) (Zpos (mx * my))
                  (ex + ey) loc_Exact ltac:(lia)) as H.
    rewrite E in H. exact H.
Qed.

Lemma finite_positive_rank x :
  is_finite x = true -> (0 <? x)%float = true -> 0 < rank x < top.
Proof.
  intros Hf Hp. destruct (ltb_true_not_nan _ _ Hp) as [_ Nx].
  rewrite (ltb_rank 0 x eq_refl Nx), rank_0 in Hp. apply Z.ltb_lt in Hp.
  split; [assumption |]. unfold rank in *.
  pose proof (Prim2SF_valid x) as V.
  destruct (is_finite_spec x Hf) as [s [E | (m & e & E)]]; rewrite E in *;
    cbn [key valid_binary] in *; [lia |].
  pose proof (bounded_below_top m e V). destruct s; cbn [cond_Zopp] in *; lia.
Qed.

Lemma uncapped_is_fibonacci this k :
  reachable this -> exists j, uncapped this k = fibonacci j.
Proof.
  intros Hreach. destruct (Z.lt_ge_cases k 0) as [Hneg | Hpos].
  - exists 0%nat.
    destruct (reachable_fibonacci_cache this Hreach) as (n & Hn & Hseq).
    unfold uncapped. destruct (Z.ltb_spec k 0); [| lia].
    rewrite index_nth, Hseq, nth_fibonacci by lia. reflexivity.
  - eexists. now apply uncapped_fibonacci.
Qed.

Lemma getNextTerm_at_least_one this k :
  reachable this ->
  (cap_on this = true -> (1 <=? maxTerm this)%float = true) ->
  rank 1%float <= rank (fst (getNextTerm this k)).
Proof.
  intros Hreach Hcap.
  destruct (uncapped_is_fibonacci this k Hreach) as [j Hj].
  pose proof (fibonacci_monotone 0 j ltac:(lia)) as Hmono.
  change (fibonacci 0) with 1%float in Hmono.
  pose proof (fibonacci_positive_ascending j) as [Hpos _].
  rewrite getNextTerm_uncapped, Hj.
  destruct (k <? 0); [assumption |].
  rewrite capped_rank by assumption.
  destruct (cap_on this) eqn:Hon; [| assumption].
  destruct (cap_on_positive this Hon) as [Nm _].
  specialize (Hcap eq_refl). rewrite (leb_rank 1 _ eq_refl Nm) in Hcap.
  apply Z.leb_le in Hcap. lia.
Qed.

Lemma sub_has_sign x y :
  has_sign false (Prim2SF x) -> has_sign false (Prim2SF y) ->
  rank y <= rank x -> rank y < top ->
  has_sign false (Prim2SF (x - y)%float).
Proof.
  intros Sx Sy Hle Hy. unfold rank in Hy.
  destruct (Prim2SF y) as [sy | sy | | sy my ey] eqn:Ey;
    cbn [has_sign] in Sy; try contradiction; subst sy.
  - rewrite sub_spec, Ey.
    destruct (Prim2SF x) as [sx | sx | | sx mx ex];
      cbn [has_sign] in Sx; try contradiction; subst sx; reflexivity.
  - cbn [key cond_Zopp] in Hy. lia.
  - apply sub_nonneg; [| assumption].
    pose proof (Prim2SF_valid y) as V. rewrite Ey in V. cbn [valid_binary] in V.
    unfold rank. rewrite Ey. cbn [key cond_Zopp].
    apply (bounded_below_top my ey V).
Qed.

Lemma has_sign_false_rank x : has_sign false (Prim2SF x) -> 0 <= rank x.
Proof.
  unfold rank. assert (HT : 0 < top) by (apply pow2_gt0; lia).
  destruct (Prim2SF x) as [s | s | | s m e]; cbn [has_sign key];
    try contradiction; intros ->; cbn [cond_Zopp]; try lia.
  apply scaled_nonneg.
Qed.

Lemma is_finite_rank x : is_finite x = true -> Z.abs (rank x) < top.
Proof.
  intros Hf. unfold rank. pose proof (Prim2SF_valid x) as V.
  assert (HT : 0 < top) by (apply pow2_gt0; lia).
  destruct (is_finite_spec x Hf) as [s [E | (m & e & E)]]; rewrite E in *;
    cbn [key valid_binary] in *; [lia |].
  pose proof (bounded_below_top m e V). destruct s; cbn [cond_Zopp]; lia.
Qed.

Lemma mul_infinite_r x y :
  0 < rank x -> rank y = top -> is_finite (x * y)%float = false.
Proof.
  intros Hx Hy.
  assert (HT : 0 < top) by (apply pow2_gt0; lia).
  assert (E : exists s, Prim2SF (x * y)%float = S754_infinity s).
  { rewrite mul_spec. unfold rank in *. pose proof (Prim2SF_valid y) as Vy.
    destruct (Prim2SF y) as [sy | sy | | sy my ey];
      cbn [key valid_binary] in Hy, Vy; try lia.
    - destruct (Prim2SF x) as [sx | sx | | sx mx ex]; cbn [key] in Hx;
        try lia; cbn [SF64mul SFmul]; eauto.
    - pose proof (bounded_below_top my ey Vy).
      destruct sy; cbn [cond_Zopp] in Hy; lia. }
  apply is_infinity_spec in E. unfold is_finite. rewrite E.
  now rewrite orb_true_r.
Qed.

Lemma div_has_sign x y :
  has_sign false (Prim2SF x) -> 0 < rank y < top ->
  has_sign false (Prim2SF (x / y)%float).
Proof.
  intros Sx Hy.
  destruct (rank_finite_positive y Hy) as (m & e & E & _).
  rewrite div_spec, E. now apply SFdiv_has_sign.
Qed.

Lemma mul_le_left x c :
  has_sign false (Prim2SF x) -> rank x < top ->
  0 < rank c <= rank 1%float ->
  rank (x * c)%float <= rank x.
Proof.
  intros Sx Hx Hc. pose proof rank_1 as H1.
  assert (HP : 0 < 2 ^ bias) by (apply pow2_gt0; unfold bias; lia).
  assert (H1top : rank 1%float < top)
    by (apply Z.ltb_lt; vm_compute; reflexivity).
  pose proof (has_sign_not_nan _ _ Sx) as Nx.
  pose proof (has_sign_false_rank x Sx) as Px.
  destruct (Z.eq_dec (rank x) 0) as [Hz | Hnz].
  - rewrite Hz. unfold rank in Hz |- *. rewrite mul_spec.
    destruct (rank_finite_positive c ltac:(lia)) as (mc & ec & -> & _).
    pose proof (Prim2SF_valid x) as V.
    destruct (Prim2SF x) as [sx | sx | | sx mx ex];
      cbn [has_sign] in Sx; try contradiction; subst sx;
      cbn [key cond_Zopp valid_binary] in Hz, V.
    + cbn. lia.
    + assert (HT : 0 < top) by (apply pow2_gt0; lia). lia.
    + pose proof (bounded_below_top mx ex V). lia.
  - destruct (mul_upper x c x Nx Hx) as [_ Hu]; try lia. nia.
Qed.

Lemma billing_for_not_negative this k term :
  0 < rank (basePrice this) -> 0 < rank (discountRate this) < top ->
  rank 1%float <= rank term ->
  (0 <=? discount (billing_for this k term))%float = true /\
  (0 <=? baseAmount (billing_for this k term))%float = true /\
  (0 <=? finalAmount (billing_for this k term))%float = true /\
  (is_finite (basePrice this * term)%float = true ->
   (0 <=? savingsAmount (billing_for this k term))%float = true /\
   (0 <=? effectiveMonthlyRate (billing_for this k term))%float = true).
Proof.
  intros Hb Hr Ht.
  cbn [billing_for discount baseAmount finalAmount savingsAmount
       effectiveMonthlyRate].
  pose proof rank_1 as H1. pose proof rank_half as Hhalf.
  assert (HP : 0 < 2 ^ bias) by (apply pow2_gt0; unfold bias; lia).
  assert (HT : 0 < top) by (apply pow2_gt0; lia).
  assert (H1top : rank 1%float < top)
    by (apply Z.ltb_lt; vm_compute; reflexivity).
  assert (Hterm : 0 < rank term) by lia.
  (* the term less one *)
  assert (St : has_sign false (Prim2SF (term - 1)%float))
    by (apply sub_nonneg; lia).
  pose proof (has_sign_not_nan _ _ St) as Nt.
  (* the raw discount *)
  set (raw := (discountRate this * (term - 1))%float).
  assert (Nraw : is_nan raw = false).
  { apply mul_not_nan; try assumption; try lia.
    apply rank_positive_not_nan; lia. }
  assert (Sraw : has_sign false (Prim2SF raw)).
  { apply mul_has_sign; try assumption. apply positive_has_sign; lia. }
  set (d := Math_min raw 0.5%float).
  assert (Hd : has_sign false (Prim2SF d) /\ rank d <= rank 0.5%float).
  { unfold d.
    destruct (Math_min_cases raw 0.5%float)
      as [[Hnan _] | (_ & _ & Hsel & Hmin)].
    - rewrite Nraw in Hnan. discriminate.
    - split; [| lia]. destruct Hsel as [-> | ->]; [assumption | reflexivity]. }
  destruct Hd as [Sd Rd]. pose proof (has_sign_not_nan _ _ Sd) as Nd.
  (* the base amount *)
  set (base := (basePrice this * term)%float).
  assert (Nbase : is_nan base = false).
  { apply mul_not_nan; try lia; apply rank_positive_not_nan; lia. }
  assert (Sbase : has_sign false (Prim2SF base))
    by (apply mul_has_sign; try assumption; apply positive_has_sign; lia).
  (* one less the discount *)
  destruct (one_minus_bounds d Sd Rd) as [Nc Rc].
  assert (Sc : has_sign false (Prim2SF (1 - d)%float))
    by (apply positive_has_sign; lia).
  (* the discounted amount *)
  set (discounted := (base * (1 - d))%float).
  assert (Ndisc : is_nan discounted = false)
    by (apply mul_not_nan; try assumption; lia).
  assert (Sdisc : has_sign false (Prim2SF discounted))
    by now apply mul_has_sign.
  split; [| split; [| split]].
  - apply has_sign_false_leb, round2_has_sign.
    destruct (percent_upper d Nd Rd) as [Np _].
    apply mul_has_sign; [assumption | reflexivity | assumption].
  - now apply has_sign_false_leb, round2_has_sign.
  - now apply has_sign_false_leb, round2_has_sign.
  - intros Hfin. pose proof (is_finite_rank base Hfin) as Rbase.
    pose proof (has_sign_false_rank base Sbase) as Pbase.
    assert (Rterm : rank term < top).
    { destruct (Z.lt_ge_cases (rank term) top) as [? | Hge]; [assumption |].
      assert (Htop : rank term = top).
      { unfold rank in *. pose proof (Prim2SF_valid term) as V.
        destruct (Prim2SF term) as [s | s | | s m e];
          cbn [key valid_binary] in *; try lia.
        - destruct s; cbn [cond_Zopp] in *; lia.
        - pose proof (bounded_below_top m e V).
          destruct s; cbn [cond_Zopp] in *; lia. }
      pose proof (mul_infinite_r (basePrice this) term Hb Htop) as Hinf.
      fold base in Hinf. congruence. }
    assert (Rdisc : rank discounted <= rank base)
      by (apply mul_le_left; try assumption; lia).
    split; apply has_sign_false_leb, round2_has_sign.
    + apply sub_has_sign; try assumption. lia.
    + apply div_has_sign; [assumption | lia].
Qed.

End Nonnegative.

(** X13. On every engine a program can hold whose [basePrice] and
    [discountRate] are positive, the rate finite, and whose cap, if in
    force, is at least one month, every record of [calculateNextBilling]
    has [discount], [baseAmount] and [finalAmount] at least 0 (none is
    [NaN]); when the unrounded base amount is finite, so have
    [savingsAmount] and [effectiveMonthlyRate]. *)
Theorem amounts_not_negative this k :
  reachable this ->
  (0 <? basePrice this)%float = true ->
  (0 <? discountRate this)%float = true ->
  is_finite (discountRate this) = true ->
  (cap_on this = true -> (1 <=? maxTerm this)%float = true) ->
  let info := fst (calculateNextBilling this k) in
  (0 <=? discount info)%float = true /\
  (0 <=? baseAmount info)%float = true /\
  (0 <=? finalAmount info)%float = true /\
  (is_finite (basePrice this * termMonths info)%float = true ->
   (0 <=? savingsAmount info)%float = true /\
   (0 <=? effectiveMonthlyRate info)%float = true).
Proof.
  intros Hreach Hb Hr Hf Hcap. cbv zeta.
  rewrite calculateNextBilling_billing_for.
  apply billing_for_not_negative.
  - destruct (ltb_true_not_nan _ _ Hb) as [_ Nb].
    rewrite (ltb_rank 0 _ eq_refl Nb), rank_0 in Hb. now apply Z.ltb_lt.
  - now apply finite_positive_rank.
  - now apply getNextTerm_at_least_one.
Qed.

Lemma amounts_not_negative_witness :
  (0 <=? finalAmount (fst (calculateNextBilling fresh 3)))%float = true.
Proof.
  assert (Hcap : cap_on fresh = true -> (1 <=? maxTerm fresh)%float = true)
    by (intros H; discriminate H).
  exact (proj1 (proj2 (proj2
    (amounts_not_negative fresh 3 (reach_new no_options)
       eq_refl eq_refl eq_refl Hcap)))).
Defined.

(** The hypothesis on the cap is needed: a cap of half a month makes
    the discount of the first cycle negative. *)
Example discount_below_zero_under_short_cap :
  discount (fst (calculateNextBilling (constructor (capping 0.5)) 0))
    = (-2.5)%float.
Proof. vm_compute. reflexivity. Qed.

(** X14. When the raw discount [discountRate * (termMonths - 1)] is at
    least one half, the record of [calculateNextBilling] has [discount]
    exactly 50 and [finalAmount] the rounded half of the unrounded base
    amount. *)
Theorem discount_saturates this k :
  let info := fst (calculateNextBilling this k) in
  (0.5 <=? discountRate this * (termMonths info - 1))%float = true ->
  discount info = 50%float /\
  finalAmount info = round2 (basePrice this * termMonths info * 0.5)%float.
Proof.
  cbv zeta. rewrite calculateNextBilling_billing_for.
  cbn [billing_for termMonths discount finalAmount].
  set (raw := (discountRate this * (fst (getNextTerm this k) - 1))%float).
  intros Hraw.
  assert (Nraw : is_nan raw = false).
  { apply is_nan_false. rewrite leb_spec in Hraw. intros E.
    rewrite E in Hraw. discriminate Hraw. }
  rewrite (leb_rank 0.5 raw eq_refl Nraw) in Hraw. apply Z.leb_le in Hraw.
  assert (Hhalf : 0 < rank 0.5%float)
    by (apply Z.ltb_lt; vm_compute; reflexivity).
  rewrite (Math_min_cap raw 0.5%float) by (reflexivity || lia).
  split; reflexivity.
Qed.

Lemma discount_saturates_witness :
  discount (fst (calculateNextBilling fresh 6)) = 50%float.
Proof.
  exact (proj1 (discount_saturates fresh 6 eq_refl)).
Defined.

(** ** The total duration of a summary *)

Section TotalMonths.

Lemma zero_add x : 0 < rank x -> (0 + x)%float = x.
Proof.
  intros Hx. rewrite <- (SF2Prim_Prim2SF x) at 2. apply SF_of_float.
  rewrite add_spec. change (Prim2SF 0) with (S754_zero false).
  unfold rank in Hx.
  destruct (Prim2SF x) as [s | s | | s m e]; cbn [key] in Hx; try lia;
    reflexivity.
Qed.

Lemma fold_sum_lower (field : BillingCycleInfo.t -> number) l : forall acc,
  (forall x, In x l -> 0 < rank (field x)) -> 0 < rank acc ->
  rank acc <= rank (fold_left (fun sum item => (sum + field item)%float) l acc)
  /\ forall x, In x l ->
       rank (field x)
         <= rank (fold_left (fun sum item => (sum + field item)%float) l acc).
Proof.
  induction l as [| y l IH]; intros acc Hl Hacc; cbn [fold_left].
  - split; [lia | contradiction].
  - assert (Hy : 0 < rank (field y)) by (apply Hl; now left).
    destruct (add_lower acc (field y) Hacc Hy) as (_ & Ha & Hb).
    destruct (IH (acc + field y)%float) as [Hsum Hin];
      [intros x Hx; apply Hl; now right | lia |].
    split; [lia |]. intros x [<- | Hx]; [lia | now apply Hin].
Qed.

Lemma reduce_sum_lower (field : BillingCycleInfo.t -> number) l :
  l <> [] -> (forall x, In x l -> 0 < rank (field x)) ->
  0 < rank (reduce_sum field l) /\
  forall x, In x l -> rank (field x) <= rank (reduce_sum field l).
Proof.
  intros Hne Hl. destruct l as [| y l]; [contradiction |].
  assert (Hy : 0 < rank (field y)) by (apply Hl; now left).
  unfold reduce_sum. cbn [fold_left]. rewrite zero_add by assumption.
  destruct (fold_sum_lower field l (field y)) as [Hsum Hin];
    [intros x Hx; apply Hl; now right | assumption |].
  split; [lia |]. intros x [<- | Hx]; [assumption | now apply Hin].
Qed.

Lemma getBillingSummary_totalMonths this n :
  BillingSummary.totalMonths (fst (getBillingSummary this n))
    = reduce_sum termMonths (fst (generateBillingSchedule this n)).
Proof.
  unfold getBillingSummary.
  now destruct (generateBillingSchedule this n).
Qed.

Lemma schedule_terms_positive this n info :
  reachable this -> In info (fst (generateBillingSchedule this n)) ->
  0 < rank (termMonths info).
Proof.
  intros Hreach Hin. rewrite schedule_closed_form_Z in Hin by assumption.
  apply in_map_iff in Hin as (i & <- & _). cbn [billing_for termMonths].
  apply capped_positive, fibonacci_positive_ascending.
Qed.

End TotalMonths.

(** X15. For [cycles >= 1], on every engine a program can hold, the
    [totalMonths] of [getBillingSummary] is above 0 and at least the
    [termMonths] of every entry of the schedule: the division that gives
    [effectiveMonthlyRate] does not have a zero divisor. *)
Theorem summary_months_positive this n :
  reachable this -> 1 <= n ->
  (0 <? BillingSummary.totalMonths (fst (getBillingSummary this n)))%float
    = true /\
  forall info, In info (fst (generateBillingSchedule this n)) ->
    (termMonths info
       <=? BillingSummary.totalMonths (fst (getBillingSummary this n)))%float
      = true.
Proof.
  intros Hreach Hn. rewrite getBillingSummary_totalMonths.
  destruct (reduce_sum_lower termMonths (fst (generateBillingSchedule this n)))
    as [Hpos Hall].
  - intros E. apply (f_equal (@List.length _)) in E.
    rewrite schedule_closed_form_Z, length_map, length_seq in E
      by assumption.
    cbn [List.length] in E. lia.
  - intros x Hx. now apply (schedule_terms_positive this n).
  - split; [now apply positive_rank |].
    intros info Hin. apply leb_of_rank; [| now apply Hall].
    now apply (schedule_terms_positive this n).
Qed.

Lemma summary_months_positive_witness :
  (0 <? BillingSummary.totalMonths (fst (getBillingSummary fresh 10)))%float
    = true.
Proof.
  exact (proj1 (summary_months_positive fresh 10 (reach_new no_options)
                  ltac:(lia))).
Defined.

(** ** The terms of two indices

    The order in which two indices are asked matters: a smaller index
    asked after a larger one can get the larger term.  These are the
    orders in which the term does not decrease. *)

(** X21. For an engine a program can hold and indices [i <= j]: with the
    cap off, the term for [i] is at most the term for [j], when both
    are asked of the same engine state or [j] is asked right after [i];
    with the cap on ([capTerm] and [maxTerm > 0]), once the term selected
    for an index [i >= 0] has reached [maxTerm], the term for every larger
    index is [maxTerm]. *)
Theorem getNextTerm_monotone this i j :
  reachable this -> i <= j ->
  (capTerm this && (0 <? maxTerm this)%float = false ->
   (fst (getNextTerm this i) <=? fst (getNextTerm this j))%float = true /\
   (fst (getNextTerm this i)
      <=? fst (getNextTerm (snd (getNextTerm this i)) j))%float = true) /\
  (capTerm this && (0 <? maxTerm this)%float = true -> 0 <= i ->
   (maxTerm this <=? uncapped this i)%float = true ->
   fst (getNextTerm this j) = maxTerm this /\
   fst (getNextTerm (snd (getNextTerm this i)) j) = maxTerm this).
Proof.
  intros Hreach Hij.
  pose proof (reachable_cache_ok this Hreach) as Hok.
  pose proof (cache_ok_getNextTerm this i Hok) as Hok'.
  destruct (getNextTerm_frame this i) as [(_ & _ & Hcap' & Hmax') _].
  pose proof (uncapped_positive this i Hok) as Pi.
  pose proof (uncapped_positive this j Hok) as Pj.
  pose proof (uncapped_positive (snd (getNextTerm this i)) j Hok') as Pj'.
  pose proof (uncapped_monotone this i j Hok Hij) as Hsame.
  pose proof (uncapped_monotone_next this i j Hok Hij) as Hnext.
  split.
  - intros Hoff.
    assert (Hraw : forall that k,
      capTerm that = capTerm this -> maxTerm that = maxTerm this ->
      fst (getNextTerm that k) = uncapped that k).
    { intros that k Hc Hm. rewrite getNextTerm_uncapped.
      unfold capped. rewrite Hc, Hm, Hoff. now destruct (k <? 0). }
    rewrite !Hraw by (reflexivity || assumption).
    rewrite !leb_rank by now apply rank_positive_not_nan.
    split; apply Z.leb_le; assumption.
  - intros Hon Hi Hreached.
    apply andb_true_iff in Hon as [Hcap Hmax].
    pose proof (ltb_true_not_nan _ _ Hmax) as [_ Nmax].
    rewrite leb_rank in Hreached
      by (assumption || now apply rank_positive_not_nan).
    apply Z.leb_le in Hreached.
    assert (Hj : (j <? 0) = false) by (apply Z.ltb_ge; lia).
    rewrite !getNextTerm_uncapped, Hj. unfold capped.
    rewrite Hcap', Hmax', Hcap, Hmax. cbn [andb].
    split; apply Math_min_cap; try assumption; lia.
Qed.

Lemma getNextTerm_monotone_witness :
  (fst (getNextTerm fresh 3) <=? fst (getNextTerm fresh 20))%float = true /\
  fst (getNextTerm (constructor (capping 6)) 5) = 6%float.
Proof.
  split.
  - exact (proj1 (proj1 (getNextTerm_monotone fresh 3 20
                           (reach_new no_options) ltac:(lia)) eq_refl)).
  - exact (proj1 (proj2 (getNextTerm_monotone (constructor (capping 6)) 4 5
                           (reach_new (capping 6)) ltac:(lia))
                    eq_refl ltac:(lia) eq_refl)).
Defined.

(** * The stand-alone visualizer *)

Section VisualizerRows.

Import Visualizer.

Lemma data_loop_rows basePrice discountRate todo : forall i data,
  data_loop basePrice discountRate todo (Z.of_nat i) (running_months i) data =
    data ++ map (fun j => fst (step basePrice discountRate (Z.of_nat j)
                                 (running_months j)))
                (seq i todo).
Proof.
  induction todo as [| todo IH]; intros i data.
  - cbn. now rewrite app_nil_r.
  - cbn [data_loop seq map].
    change (step basePrice discountRate (Z.of_nat i) (running_months i))
      with (fst (step basePrice discountRate (Z.of_nat i) (running_months i)),
            running_months (S i)).
    cbv iota beta.
    replace (Z.of_nat i + 1) with (Z.of_nat (S i)) by lia.
    rewrite IH, <- app_assoc. reflexivity.
Qed.

Lemma generateBillingData_rows basePrice discountRate cycles :
  generateBillingData basePrice discountRate cycles =
    map (fun j => fst (step basePrice discountRate (Z.of_nat j)
                         (running_months j)))
        (seq 0 (Z.to_nat cycles)).
Proof.
  unfold generateBillingData.
  apply (data_loop_rows basePrice discountRate (Z.to_nat cycles) 0%nat []).
Qed.

Lemma termAt_fibonacci i :
  termAt (Z.of_nat i) = fibonacci (Nat.min i 11).
Proof.
  do 11 (destruct i as [| i]; [reflexivity |]).
  replace (Nat.min _ 11) with 11%nat by lia.
  set (k := Z.of_nat _). assert (Hk : 11 <= k) by (unfold k; lia).
  clearbody k. unfold termAt. change (length fibSequence) with 11.
  destruct (Z.ltb_spec k 11) as [H | _]; [lia | reflexivity].
Qed.

Lemma totalMonths_rows (f : nat -> BillingDatum) k :
  (forall j, termMonths (f j) = termAt (Z.of_nat j)) ->
  totalMonths (map f (seq 0 k)) = running_months k.
Proof.
  intros Hf. unfold totalMonths. induction k as [| k IH]; [reflexivity |].
  rewrite seq_S, map_app, fold_left_app, IH. cbn [map fold_left Nat.add].
  now rewrite Hf.
Qed.

Lemma firstn_seq_le k : forall s n,
  (k <= n)%nat -> firstn k (seq s n) = seq s k.
Proof.
  induction k as [| k IH]; intros s n Hk; [reflexivity |].
  destruct n as [| n]; [lia |]. cbn [seq firstn].
  now rewrite IH by lia.
Qed.

Lemma generateBillingData_schedule this n :
  reachable this -> cap_on this = false -> n <= 12 ->
  map Visualizer.to_info
      (Visualizer.generateBillingData (basePrice this) (discountRate this) n)
    = fst (generateBillingSchedule this n).
Proof.
  intros Hreach Hcap Hn.
  rewrite generateBillingData_rows, schedule_closed_form_Z by assumption.
  rewrite map_map. apply map_ext_in. intros i Hi. apply in_seq in Hi.
  unfold capped. fold (cap_on this). rewrite Hcap.
  replace (fibonacci i) with (Visualizer.termAt (Z.of_nat i));
    [reflexivity |].
  rewrite termAt_fibonacci. f_equal. lia.
Qed.

End VisualizerRows.

Section SummaryFields.

Lemma reduce_sum_map {A} (field : BillingCycleInfo.t -> number)
  (h : A -> BillingCycleInfo.t) l :
  reduce_sum field (map h l)
    = fold_left (fun sum x => (sum + field (h x))%float) l 0%float.
Proof.
  unfold reduce_sum. generalize 0%float.
  induction l as [| x l IH]; intros acc; [reflexivity |].
  cbn [map fold_left]. apply IH.
Qed.

Lemma getBillingSummary_fields this n :
  fst (getBillingSummary this n) =
    let schedule := fst (generateBillingSchedule this n) in
    {| BillingSummary.cycles := n;
       BillingSummary.totalMonths := reduce_sum termMonths schedule;
       BillingSummary.totalAmount := round2 (reduce_sum finalAmount schedule);
       BillingSummary.totalBaseAmount :=
         round2 (reduce_sum baseAmount schedule);
       BillingSummary.totalSavings :=
         round2 (reduce_sum savingsAmount schedule);
       BillingSummary.savingsPercentage :=
         round2 (reduce_sum savingsAmount schedule
                 / reduce_sum baseAmount schedule * 100)%float;
       BillingSummary.effectiveMonthlyRate :=
         round2 (reduce_sum finalAmount schedule
                 / reduce_sum termMonths schedule)%float |}.
Proof.
  unfold getBillingSummary.
  now destruct (generateBillingSchedule this n).
Qed.

End SummaryFields.

(** X16. For at most 12 cycles, the rows that the visualizer computes
    for a base price and a discount rate are, [month] apart, the
    schedule of any engine a program can hold that has this base price
    and this discount rate and no cap in force. *)
Theorem visualizer_agrees_with_engine this n :
  reachable this -> cap_on this = false -> n <= 12 ->
  map Visualizer.to_info
      (Visualizer.generateBillingData (basePrice this) (discountRate this) n)
    = fst (generateBillingSchedule this n).
Proof. apply generateBillingData_schedule. Qed.

Lemma visualizer_agrees_with_engine_witness :
  map Visualizer.to_info (Visualizer.generateBillingData 20%float 0.1%float 12)
    = fst (generateBillingSchedule (constructor (priced 20 0.1)) 12).
Proof.
  apply (visualizer_agrees_with_engine (constructor (priced 20 0.1)) 12).
  - apply (reach_new (priced 20 0.1)).
  - reflexivity.
  - lia.
Defined.

(** X17. The row of index [i] of the visualizer has [cycle = i + 1] and
    the term number [min(i, 11)] of the sequence: from the row of index
    12 on the term stays at 233, strictly below the term number [i] of
    the sequence. *)
Theorem visualizer_term_stalls basePrice discountRate n i row :
  nth_error (Visualizer.generateBillingData basePrice discountRate n) i
    = Some row ->
  Visualizer.cycle row = Z.of_nat i + 1 /\
  Visualizer.termMonths row = fibonacci (Nat.min i 11) /\
  ((12 <= i)%nat ->
   Visualizer.termMonths row = 233%float /\
   (Visualizer.termMonths row <? fibonacci i)%float = true).
Proof.
  intros Hrow. rewrite generateBillingData_rows in Hrow.
  assert (Hi : (i < Z.to_nat n)%nat).
  { apply nth_error_Some_length in Hrow.
    now rewrite length_map, length_seq in Hrow. }
  rewrite nth_map_seq in Hrow by assumption. injection Hrow as <-.
  cbn [Visualizer.step fst Visualizer.cycle Visualizer.termMonths].
  split; [reflexivity |]. split; [apply termAt_fibonacci |].
  intros H12. rewrite termAt_fibonacci.
  replace (Nat.min i 11) with 11%nat by lia.
  split; [reflexivity |].
  pose proof (fibonacci_monotone 12 i H12) as Hmono.
  assert (H233 : rank (fibonacci 11) < rank (fibonacci 12))
    by (apply Z.ltb_lt; vm_compute; reflexivity).
  pose proof (fibonacci_positive_ascending 11) as [Hpos _].
  rewrite ltb_rank by (apply rank_positive_not_nan; lia).
  apply Z.ltb_lt. lia.
Qed.

Lemma visualizer_term_stalls_witness :
  exists row,
    nth_error (Visualizer.generateBillingData 20%float 0.1%float 15) 14 = Some row /\
    Visualizer.termMonths row = 233%float.
Proof.
  eexists. split; [reflexivity |].
  exact (proj1 (proj2 (proj2
    (visualizer_term_stalls 20%float 0.1%float 15 14%nat _ eq_refl)) ltac:(lia))).
Defined.

(** X18. In the rows of the visualizer, [month] of the row of index [i]
    is the sum of [termMonths] over the rows of index 0 to [i], added in
    this order; so [month] of the last row is the total duration that
    the component displays. *)
Theorem visualizer_month_running_total basePrice discountRate n i row :
  nth_error (Visualizer.generateBillingData basePrice discountRate n) i
    = Some row ->
  Visualizer.month row =
    Visualizer.totalMonths
      (firstn (S i) (Visualizer.generateBillingData basePrice discountRate n)).
Proof.
  intros Hrow. rewrite generateBillingData_rows in Hrow |- *.
  assert (Hi : (i < Z.to_nat n)%nat).
  { apply nth_error_Some_length in Hrow.
    now rewrite length_map, length_seq in Hrow. }
  rewrite nth_map_seq in Hrow by assumption. injection Hrow as <-.
  rewrite firstn_map, firstn_seq_le by lia.
  rewrite totalMonths_rows by reflexivity.
  reflexivity.
Qed.

Lemma visualizer_month_running_total_witness :
  exists row,
    nth_error (Visualizer.generateBillingData 20%float 0.1%float 8) 7 = Some row /\
    Visualizer.month row
      = Visualizer.totalMonths (Visualizer.generateBillingData 20%float 0.1%float 8).
Proof.
  eexists. split; [reflexivity |].
  exact (visualizer_month_running_total 20%float 0.1%float 8 7%nat _ eq_refl).
Defined.

(** X19. For at most 12 cycles and an engine a program can hold with no
    cap in force, the summary of the engine holds the totals of the
    stand-alone visualizer: the same [totalMonths], and for the amounts
    and the savings percentage the number that the visualizer's
    two-decimal display parses to. *)
Theorem visualizer_totals_agree this n :
  reachable this -> cap_on this = false -> n <= 12 ->
  let data :=
    Visualizer.generateBillingData (basePrice this) (discountRate this) n in
  let summary := fst (getBillingSummary this n) in
  BillingSummary.totalMonths summary = Visualizer.totalMonths data /\
  BillingSummary.totalAmount summary = round2 (Visualizer.totalAmount data) /\
  BillingSummary.totalBaseAmount summary
    = round2 (Visualizer.totalBaseAmount data) /\
  BillingSummary.totalSavings summary
    = round2 (Visualizer.totalSavings data) /\
  BillingSummary.savingsPercentage summary
    = round2 (Visualizer.totalSavings data
              / Visualizer.totalBaseAmount data * 100)%float.
Proof.
  intros Hreach Hcap Hn. cbv zeta.
  rewrite getBillingSummary_fields. cbv zeta.
  rewrite <- (generateBillingData_schedule this n Hreach Hcap Hn).
  cbn [BillingSummary.totalMonths BillingSummary.totalAmount
       BillingSummary.totalBaseAmount BillingSummary.totalSavings
       BillingSummary.savingsPercentage].
  rewrite !reduce_sum_map. repeat split.
Qed.

Lemma visualizer_totals_agree_witness :
  BillingSummary.totalAmount
    (fst (getBillingSummary (constructor (priced 20 0.1)) 8))
    = round2 (Visualizer.totalAmount
                (Visualizer.generateBillingData 20%float 0.1%float 8)).
Proof.
  exact (proj1 (proj2
    (visualizer_totals_agree (constructor (priced 20 0.1)) 8
       (reach_new (priced 20 0.1)) eq_refl ltac:(lia)))).
Defined.

(** * The component that displays the engine *)

(** X20. The component asks one engine for the schedule and then for the
    summary.  The summary it gets is the summary of a new engine with
    the same properties, its totals are the sums over the schedule it
    displays, and the schedule has [max(0, cycles)] rows. *)
Theorem component_summary_matches_schedule
  basePrice discountRate capTerm maxTerm cycles :
  let billing :=
    constructor (Component.props basePrice discountRate capTerm maxTerm) in
  let shown :=
    Component.useEffect basePrice discountRate capTerm maxTerm cycles in
  fst shown = fst (generateBillingSchedule billing cycles) /\
  snd shown = fst (getBillingSummary billing cycles) /\
  List.length (fst shown) = Z.to_nat cycles /\
  BillingSummary.totalMonths (snd shown)
    = reduce_sum termMonths (fst shown) /\
  BillingSummary.totalAmount (snd shown)
    = round2 (reduce_sum finalAmount (fst shown)) /\
  BillingSummary.totalBaseAmount (snd shown)
    = round2 (reduce_sum baseAmount (fst shown)) /\
  BillingSummary.totalSavings (snd shown)
    = round2 (reduce_sum savingsAmount (fst shown)).
Proof.
  cbv zeta.
  set (billing :=
    constructor (Component.props basePrice discountRate capTerm maxTerm)).
  assert (Hnew : reachable billing) by apply reach_new.
  pose proof (reach_generateBillingSchedule billing cycles Hnew) as Hthen.
  destruct (generateBillingSchedule_frame_Z billing cycles) as [Hcfg _].
  assert (Hsched :
    fst (generateBillingSchedule
           (snd (generateBillingSchedule billing cycles)) cycles)
      = fst (generateBillingSchedule billing cycles)).
  { rewrite (schedule_closed_form_Z billing),
      (schedule_closed_form_Z (snd (generateBillingSchedule billing cycles)))
      by assumption.
    apply map_ext. intros i.
    now rewrite (same_config_billing_for billing),
      (same_config_capped billing). }
  pose proof (getBillingSummary_of_schedule billing
                (snd (generateBillingSchedule billing cycles)) cycles Hsched)
    as Hsum.
  assert (Hshown :
    Component.useEffect basePrice discountRate capTerm maxTerm cycles
      = (fst (generateBillingSchedule billing cycles),
         fst (getBillingSummary billing cycles))).
  { unfold Component.useEffect. fold billing. rewrite <- Hsum.
    destruct (generateBillingSchedule billing cycles) as [schedule that].
    cbn [fst snd]. now destruct (getBillingSummary that cycles). }
  rewrite Hshown. cbn [fst snd].
  rewrite getBillingSummary_fields. cbv zeta.
  repeat split.
  rewrite schedule_closed_form_Z, length_map, length_seq by assumption.
  reflexivity.
Qed.
